(** * Data Viewer screen: table session of [src/app/(tabs)/index.tsx]

    The screen keeps five pieces of React state ([data], [columns],
    [searchQuery], [sortConfig], [loading]) and offers four operations over
    them: [pickFile]/[processFile] (load), [handleSort], the derived
    [filteredData] (projection) and [exportToCSV].  The state is modelled by
    a record that is passed explicitly; every [setX] of the source is a
    record update.  Values that TypeScript erases are modelled as they are at
    run time: a cell is a number or a string, an array read out of range is
    [undefined] ([None]).  A string is the sequence of the bytes of its UTF-8
    form: on well-formed text one string occurs in another as a run of code
    units exactly when it does as a run of bytes, and the comma and the
    newline are bytes that occur nowhere else.

    What the engine and the libraries do ([XLSX], [toLowerCase], [String] of
    a number, [localeCompare], [Array.prototype.sort]) is not in the
    repository: it is the [platform] the screen runs on, a parameter of
    every operation. *)

From Stdlib Require Import List String Ascii ZArith Bool Arith Lia.
From Stdlib Require Import DecimalString Permutation Sorted.
Import ListNotations.

Local Open Scope string_scope.
Local Open Scope list_scope.

(** ** The JavaScript string and array primitives the screen calls *)

Module JS.

(** [s.startsWith(t)]. *)
Fixpoint startsWith (s t : string) {struct t} : bool :=
  match t, s with
  | EmptyString, _ => true
  | String _ _, EmptyString => false
  | String b t', String a s' => Ascii.eqb a b && startsWith s' t'
  end.

(** [s.includes(t)]: [t] occurs in [s] at some position. *)
Fixpoint includes (s t : string) : bool :=
  startsWith s t ||
  match s with
  | EmptyString => false
  | String _ s' => includes s' t
  end.

(** [parts.join(sep)] on an array of strings. *)
Fixpoint join (sep : string) (parts : list string) : string :=
  match parts with
  | [] => EmptyString
  | [p] => p
  | p :: rest => p ++ sep ++ join sep rest
  end.

(** [s.split(sep)] for a one-character separator.  The empty string splits
    into one empty field, as in JavaScript. *)
Fixpoint split (sep : ascii) (s : string) : list string :=
  match s with
  | EmptyString => [EmptyString]
  | String c s' =>
      if Ascii.eqb c sep then EmptyString :: split sep s'
      else match split sep s' with
           | [] => [String c EmptyString]
           | w :: ws => String c w :: ws
           end
  end.

(** [xs.indexOf(x)]: first position holding [x], or [-1]. *)
Fixpoint indexOf {A : Type} (eqb : A -> A -> bool) (xs : list A) (x : A) : Z :=
  match xs with
  | [] => (-1)%Z
  | y :: xs' =>
      if eqb y x then 0%Z
      else let i := indexOf eqb xs' x in
           if (i <? 0)%Z then (-1)%Z else (i + 1)%Z
  end.

(** [xs[i]]: [None] is [undefined], for a negative index or one past the
    end. *)
Definition at_ {A : Type} (xs : list A) (i : Z) : option A :=
  if (i <? 0)%Z then None else nth_error xs (Z.to_nat i).

(** The stable sort: the elements are inserted one by one, and an element
    moves in front of another one only when the comparator says it is
    strictly smaller.  On a comparator that is a consistent ordering this is
    the one arrangement that is in order and keeps equal elements in their
    original order ([SortFacts.stable_sort_unique]), so it is what
    [Array.prototype.sort], a stable sort, returns there. *)
Fixpoint insert {A : Type} (compareFn : A -> A -> Z) (x : A) (l : list A) : list A :=
  match l with
  | [] => [x]
  | y :: l' =>
      if (compareFn x y >? 0)%Z then y :: insert compareFn x l' else x :: l
  end.

Fixpoint stableSort {A : Type} (compareFn : A -> A -> Z) (l : list A) : list A :=
  match l with
  | [] => []
  | x :: l' => insert compareFn x (stableSort compareFn l')
  end.

End JS.

Definition comma : ascii := ascii_of_nat 44.
Definition newline : ascii := ascii_of_nat 10.

(** ** Cells, rows and the session state *)

(** A cell as the decoder produces it ([any] in the source): a number or a
    string. *)
Inductive cell : Type :=
| CNum (n : Z)
| CStr (s : string).

Definition row : Type := list cell.

(** A value read from a row: a cell, or [undefined]. *)
Definition value : Type := option cell.

(** [typeof v === 'number']. *)
Definition isNumber (v : value) : bool :=
  match v with
  | Some (CNum _) => true
  | _ => false
  end.

(** ** ASCII text and letter case *)

(** The string [s] with every character replaced by its image under [f]. *)
Fixpoint mapChars (f : ascii -> ascii) (s : string) : string :=
  match s with
  | EmptyString => EmptyString
  | String c s' => String (f c) (mapChars f s')
  end.

(** The code is that of a capital ASCII letter. *)
Definition isUpperCode (n : nat) : bool := (65 <=? n)%nat && (n <=? 90)%nat.

(** Lower case of an ASCII letter; any other character is left as it is. *)
Definition asciiLowerChar (c : ascii) : ascii :=
  let n := nat_of_ascii c in
  if isUpperCode n then ascii_of_nat (n + 32) else c.

(** Every character of [s] is an ASCII character. *)
Fixpoint isAscii (s : string) : bool :=
  match s with
  | EmptyString => true
  | String c s' => (nat_of_ascii c <? 128)%nat && isAscii s'
  end.

(** A comparator is a consistent ordering of the elements of [l]:
    exchanging the arguments exchanges the sign, and "not after" is
    transitive. *)
Definition consistentOn {A : Type} (cmp : A -> A -> Z) (l : list A) : Prop :=
  (forall x y, In x l -> In y l -> Z.sgn (cmp y x) = (- Z.sgn (cmp x y))%Z) /\
  (forall x y z, In x l -> In y l -> In z l ->
                 (cmp x y <= 0)%Z -> (cmp y z <= 0)%Z -> (cmp x z <= 0)%Z).

(** ** The platform

    The functions of the engine and of the libraries that the screen calls,
    with what ECMAScript says of them and the screen relies on:
    - [parse] is the spreadsheet decoder, [XLSX.read] followed by
      [XLSX.utils.sheet_to_json(_, { header: 1 })] on the first sheet: the
      grid of cells of the content, or [None] when it throws;
    - [toLowerCase] is [String.prototype.toLowerCase], the lower-case
      mapping of Unicode; on ASCII text it lowers the letters A to Z one by
      one and leaves every other character;
    - [numberToString] is [String] on a number;
    - [localeCompare] is [String.prototype.localeCompare], the collation of
      the platform: negative, zero or positive;
    - [arraySort] is [Array.prototype.sort] on an array of rows.  It
      rearranges the array; on a comparator that is a consistent ordering of
      the rows it sorts them stably; what order it gives on any other
      comparator is left to the engine. *)
Record platform : Type := mkPlatform {
  parse : string -> option (list row);
  toLowerCase : string -> string;
  numberToString : Z -> string;
  localeCompare : string -> string -> Z;
  arraySort : (row -> row -> Z) -> list row -> list row;
  toLowerCase_ascii :
    forall s, isAscii s = true -> toLowerCase s = mapChars asciiLowerChar s;
  arraySort_permutes : forall cmp l, Permutation (arraySort cmp l) l;
  arraySort_consistent :
    forall cmp l, consistentOn cmp l -> arraySort cmp l = JS.stableSort cmp l
}.

(** [String(v)]. *)
Definition ToString (P : platform) (v : value) : string :=
  match v with
  | None => "undefined"
  | Some (CNum n) => numberToString P n
  | Some (CStr s) => s
  end.

(** [a === b] on cells. *)
Definition strictEq (a b : cell) : bool :=
  match a, b with
  | CNum x, CNum y => Z.eqb x y
  | CStr s, CStr t => String.eqb s t
  | _, _ => false
  end.

Inductive sort_direction : Type := asc | desc.

(** [{ key: string | null; direction: 'asc' | 'desc' }]. *)
Record SortConfig : Type := mkSortConfig {
  key : option cell;
  direction : sort_direction
}.

(** The five [useState] cells of [Index].  [columns] is declared [string[]]
    but receives [jsonData[0]] through an unchecked cast, so at run time it
    is either a row of cells or [undefined]. *)
Record session : Type := mkSession {
  data : list row;
  columns : option (list cell);
  searchQuery : string;
  sortConfig : SortConfig;
  loading : bool
}.

Definition setData (rows : list row) (s : session) : session :=
  mkSession rows (columns s) (searchQuery s) (sortConfig s) (loading s).

Definition setColumns (headers : option (list cell)) (s : session) : session :=
  mkSession (data s) headers (searchQuery s) (sortConfig s) (loading s).

Definition setSearchQuery (q : string) (s : session) : session :=
  mkSession (data s) (columns s) q (sortConfig s) (loading s).

Definition setSortConfig (c : SortConfig) (s : session) : session :=
  mkSession (data s) (columns s) (searchQuery s) c (loading s).

Definition setLoading (b : bool) (s : session) : session :=
  mkSession (data s) (columns s) (searchQuery s) (sortConfig s) b.

(** The initial values given to [useState]. *)
Definition initial : session :=
  mkSession [] (Some []) "" (mkSortConfig None asc) false.

(** What [console.error] receives, by call site. *)
Inductive log_entry : Type :=
| ErrorPickingFile
| ErrorProcessingFile
| ErrorExportingCSV.

(** ** The operations of the screen *)

Section TableSession.

Variable P : platform.

(** [processFile]: on a decoded grid the first row goes to [columns] and
    the rest to [data]; when the decoder throws, the [catch] logs and
    nothing is set.  [jsonData[0]] of an empty grid is [undefined]. *)
Definition processFile (s : session) (content : string) : session * list log_entry :=
  match parse P content with
  | Some jsonData =>
      let headers := hd_error jsonData in
      let rows := tl jsonData in
      (setData rows (setColumns headers s), [])
  | None => (s, [ErrorProcessingFile])
  end.

(** The toggle of [handleSort]. *)
Definition nextDirection (c : SortConfig) (k : cell) : sort_direction :=
  match key c, direction c with
  | Some k', asc => if strictEq k' k then desc else asc
  | _, _ => asc
  end.

(** The comparator handed to [sort] by [handleSort]. *)
Definition compareFn (cols : list cell) (k : cell) (dir : sort_direction)
           (a b : row) : Z :=
  let aValue := JS.at_ a (JS.indexOf strictEq cols k) in
  let bValue := JS.at_ b (JS.indexOf strictEq cols k) in
  match aValue, bValue with
  | Some (CNum x), Some (CNum y) =>
      match dir with asc => (x - y)%Z | desc => (y - x)%Z end
  | _, _ =>
      match dir with
      | asc => localeCompare P (ToString P aValue) (ToString P bValue)
      | desc => localeCompare P (ToString P bValue) (ToString P aValue)
      end
  end.

(** [handleSort]: the new sort state is set first, then a copy of [data]
    is sorted by the engine and stored.  The comparator reads
    [columns.indexOf]; with
    [columns] undefined it throws as soon as it is called, which [sort]
    does for two rows or more, and [setData] is then not reached. *)
Definition handleSort (s : session) (k : cell) : session :=
  let dir := nextDirection (sortConfig s) k in
  let s' := setSortConfig (mkSortConfig (Some k) dir) s in
  match columns s with
  | Some cols => setData (arraySort P (compareFn cols k dir) (data s)) s'
  | None => if (List.length (data s) <? 2)%nat then setData (data s) s' else s'
  end.

(** The test of [filteredData] on one cell. *)
Definition cellMatches (q : string) (c : cell) : bool :=
  JS.includes (toLowerCase P (ToString P (Some c))) (toLowerCase P q).

(** [filteredData]: the rows with some matching cell, in the order of
    [data]. *)
Definition filteredData (s : session) : list row :=
  filter (fun r => existsb (cellMatches (searchQuery s)) r) (data s).

(** [row.join(',')]. *)
Definition joinCells (r : list cell) : string :=
  JS.join (String comma "") (map (fun c => ToString P (Some c)) r).

(** [csvContent] of [exportToCSV]; [columns.join] throws when [columns] is
    undefined. *)
Definition csvContent (s : session) : option string :=
  match columns s with
  | Some cols =>
      Some (JS.join (String newline "")
              (joinCells cols :: map joinCells (filteredData s)))
  | None => None
  end.

(** [exportToCSV]: the text handed to the file system, or the logged
    error. *)
Definition exportToCSV (s : session) : option string * list log_entry :=
  match csvContent s with
  | Some text => (Some text, [])
  | None => (None, [ErrorExportingCSV])
  end.

(** What the table part of the returned view shows: the header cells and
    the rows.  [columns.map] throws when [columns] is undefined. *)
Definition renderTable (s : session) : option (list cell * list row) :=
  match columns s with
  | Some cols => Some (cols, filteredData s)
  | None => None
  end.

(** *** [pickFile] and the events of the screen

    [pickFile] is an [async] function with two suspension points.  A call
    runs up to its first [await]; the platform later resumes it with the
    outcome of the awaited promise.  Between the two, the screen handles
    any other event. *)

Inductive stage : Type :=
| AwaitingPicker   (* in [DocumentPicker.getDocumentAsync] *)
| AwaitingRead     (* in [FileSystem.readAsStringAsync] *)
| Finished.

(** The screen can be drawn: while [loading] only the spinner is shown;
    otherwise the table is, and [columns.map] needs [columns]. *)
Definition rendered (s : session) : bool :=
  loading s || match columns s with Some _ => true | None => false end.

Record app : Type := mkApp {
  view : session;
  console : list log_entry;
  calls : list stage;   (* the calls of [pickFile] so far, oldest first *)
  mounted : bool        (* no render has thrown so far *)
}.

Inductive event : Type :=
| PressUpload
| PickerResolved (i : nat) (canceled : bool)
| PickerRejected (i : nat)
| ReadResolved (i : nat) (content : string)
| ReadRejected (i : nat)
| ChangeText (q : string)
| PressHeader (column : cell)
| PressExport.

Fixpoint setStage (i : nat) (st : stage) (l : list stage) : list stage :=
  match l, i with
  | [], _ => []
  | _ :: l', O => st :: l'
  | x :: l', S i' => x :: setStage i' st l'
  end.

(** The state [v] is set and the screen is drawn again; a render that
    throws unmounts the screen, and the setters of an unmounted screen do
    nothing. *)
Definition update (a : app) (v : session) (logs : list log_entry)
           (cs : list stage) : app :=
  if mounted a then mkApp v (console a ++ logs) cs (rendered v)
  else mkApp (view a) (console a ++ logs) cs false.

(** The [finally] block of [pickFile], ending call [i]. *)
Definition finish (i : nat) (a : app) (v : session) (logs : list log_entry) : app :=
  update a (setLoading false v) logs (setStage i Finished (calls a)).

Definition hasRows (s : session) : bool :=
  match data s with
  | [] => false
  | _ :: _ => true
  end.

Definition showsHeader (s : session) (column : cell) : bool :=
  negb (loading s) &&
  match columns s with
  | Some cols => existsb (fun c => strictEq c column) cols
  | None => false
  end.

(** One event; [None] when the event cannot occur in this state.  The
    upload button is always enabled; the search box and the export button
    are enabled when there are rows; a header can be pressed when the table
    is shown. *)
Definition step (a : app) (e : event) : option app :=
  match e with
  | PressUpload =>
      if mounted a
      then Some (update a (setLoading true (view a)) []
                        (calls a ++ [AwaitingPicker]))
      else None
  | PickerResolved i canceled =>
      match nth_error (calls a) i with
      | Some AwaitingPicker =>
          if canceled then Some (finish i a (view a) [])
          else Some (update a (view a) [] (setStage i AwaitingRead (calls a)))
      | _ => None
      end
  | PickerRejected i =>
      match nth_error (calls a) i with
      | Some AwaitingPicker => Some (finish i a (view a) [ErrorPickingFile])
      | _ => None
      end
  | ReadResolved i content =>
      match nth_error (calls a) i with
      | Some AwaitingRead =>
          let '(v, logs) := processFile (view a) content in
          Some (finish i a v logs)
      | _ => None
      end
  | ReadRejected i =>
      match nth_error (calls a) i with
      | Some AwaitingRead => Some (finish i a (view a) [ErrorPickingFile])
      | _ => None
      end
  | ChangeText q =>
      if mounted a && hasRows (view a)
      then Some (update a (setSearchQuery q (view a)) [] (calls a))
      else None
  | PressHeader column =>
      if mounted a && showsHeader (view a) column
      then Some (update a (handleSort (view a) column) [] (calls a))
      else None
  | PressExport =>
      if mounted a && hasRows (view a)
      then Some (update a (view a) (snd (exportToCSV (view a))) (calls a))
      else None
  end.

Fixpoint run (a : app) (es : list event) : option app :=
  match es with
  | [] => Some a
  | e :: es' =>
      match step a e with
      | Some a' => run a' es'
      | None => None
      end
  end.

Definition start : app := mkApp initial [] [] true.

Definition isInFlight (st : stage) : bool :=
  match st with
  | Finished => false
  | _ => true
  end.

(** The number of calls of [pickFile] that have started and not ended. *)
Definition inFlight (a : app) : nat :=
  List.length (filter isInFlight (calls a)).

End TableSession.

(** ** Notions used to state the properties *)

(** The string [t] occurs in [s]. *)
Definition occursIn (t s : string) : Prop :=
  exists pre post, s = (pre ++ t ++ post)%string.

(** Two characters are the same letter: they are equal, or one is a capital
    ASCII letter and the other the small letter that goes with it. *)
Definition sameLetter (c d : ascii) : bool :=
  let m := nat_of_ascii c in
  let n := nat_of_ascii d in
  (m =? n)%nat ||
  (isUpperCode m && (n =? m + 32)%nat) ||
  (isUpperCode n && (m =? n + 32)%nat).

(** Two strings are equal up to the case of their ASCII letters. *)
Fixpoint equalIgnoringCase (a b : string) : bool :=
  match a, b with
  | EmptyString, EmptyString => true
  | String c a', String d b' => sameLetter c d && equalIgnoringCase a' b'
  | _, _ => false
  end.

(** The string [s] contains [q] when letter case is ignored: some contiguous
    part of [s] equals [q] up to case. *)
Definition containsIgnoringCase (s q : string) : Prop :=
  exists pre mid post,
    s = (pre ++ mid ++ post)%string /\ equalIgnoringCase mid q = true.


(** The character [c] occurs in [s]. *)
Fixpoint occurs (c : ascii) (s : string) : bool :=
  match s with
  | EmptyString => false
  | String a s' => Ascii.eqb a c || occurs c s'
  end.

(** No comma and no newline in [s]. *)
Definition plain (s : string) : Prop :=
  occurs comma s = false /\ occurs newline s = false.

(** No cell of the row has a comma or a newline in its string form. *)
Definition plainRow (P : platform) (r : list cell) : Prop :=
  Forall (fun c => plain (ToString P (Some c))) r.

(** Reading an exported text back: split on newline, then each line on
    comma. *)
Definition reparse (text : string) : list (list string) :=
  map (JS.split comma) (JS.split newline text).

Definition cellString (P : platform) (c : cell) : string := ToString P (Some c).

(** The other direction. *)
Definition flip (d : sort_direction) : sort_direction :=
  match d with
  | asc => desc
  | desc => asc
  end.

(** The sort state in which no column is active. *)
Definition noActiveSort : SortConfig := mkSortConfig None asc.

(** The cell of row [r] under the column that [handleSort] sorts by. *)
Definition keyCell (cols : list cell) (k : cell) (r : row) : value :=
  JS.at_ r (JS.indexOf strictEq cols k).

(** The number held by a numeric value. *)
Definition numberOf (v : value) : Z :=
  match v with
  | Some (CNum x) => x
  | _ => 0%Z
  end.


(** [x] stands somewhere in front of [y] in [l]. *)
Definition before {A : Type} (x y : A) (l : list A) : Prop :=
  exists l1 l2 l3, l = l1 ++ x :: l2 ++ y :: l3.

(** The rows of [rows] paired with their positions. *)
Definition numbered (rows : list row) : list (nat * row) :=
  combine (seq 0 (List.length rows)) rows.


Definition nonEmpty (r : row) : bool :=
  match r with
  | [] => false
  | _ :: _ => true
  end.

(** *** Stand-ins for the platform in the examples

    Each stands for a function of the platform and gives, on the inputs of
    the examples, what the engine gives. *)

(** A lower-case mapping that knows the ASCII letters and two Greek
    strings: a capital sigma at the end of a word becomes the final small
    sigma, a capital sigma on its own the small sigma. *)
Definition sampleLowerCase (s : string) : string :=
  if String.eqb s "ΟΔΟΣ" then "οδος"
  else if String.eqb s "Σ" then "σ"
  else mapChars asciiLowerChar s.

(** An integer in decimal digits. *)
Definition decimalString (n : Z) : string :=
  NilZero.string_of_int (Z.to_int n).

(** The comparator reports every element as strictly smaller than the one
    in front of it. *)
Fixpoint descendingRun {A : Type} (cmp : A -> A -> Z) (l : list A) : bool :=
  match l with
  | a :: ((b :: _) as l') => (cmp b a <? 0)%Z && descendingRun cmp l'
  | _ => true
  end.

(** A sort that does what the run detection of a merge sort by runs does:
    an array that the comparator reports as one strictly descending run is
    reversed in place; any other array is sorted stably. *)
Definition runReversingSort {A : Type} (cmp : A -> A -> Z) (l : list A) : list A :=
  if descendingRun cmp l then rev l else JS.stableSort cmp l.

(** A collation: code-unit order. *)
Definition codeUnitCompare (s t : string) : Z :=
  match String.compare s t with
  | Lt => (-1)%Z
  | Eq => 0%Z
  | Gt => 1%Z
  end.

Definition people : list row :=
  [ [CStr "Name"; CStr "Age"];
    [CStr "Bob"; CNum 30];
    [CStr "Ann"; CNum 25] ].

(** A decoder that knows four files: a two-column table, a sheet whose
    second row is blank, a sheet whose first row is blank, and the empty
    sheet; it rejects any other content. *)
Definition sampleDecoder (content : string) : option (list row) :=
  if String.eqb content "people" then Some people
  else if String.eqb content "gap" then
         Some [ [CStr "Item"]; []; [CStr "pen"] ]
  else if String.eqb content "headless" then
         Some [ []; [CStr "pen"] ]
  else if String.eqb content "" then Some []
  else None.

(** A loaded session in which two rows have the same age. *)
Definition tiedSession : session :=
  mkSession [ [CStr "Bob"; CNum 30]; [CStr "Ann"; CNum 30]; [CStr "Cy"; CNum 25] ]
            (Some [CStr "Name"; CStr "Age"]) "" noActiveSort false.

(** The screen while the first call of [pickFile] reads its file. *)
Definition readingApp : app :=
  mkApp (setLoading true initial) [] [AwaitingRead] true.


(** A loaded session with one Greek word, searched for a capital sigma. *)
Definition greekSession : session :=
  mkSession [ [CStr "ΟΔΟΣ"] ] (Some [CStr "Street"]) "Σ" noActiveSort false.

(** A session in which a filter and a descending sort are set. *)
Definition busySession : session :=
  mkSession [ [CStr "x"; CNum 1] ] (Some [CStr "Key"; CStr "Age"]) "ann"
            (mkSortConfig (Some (CStr "Age")) desc) false.

(** *** Notions used by the further properties *)

(** The number under the sort column, for a row that has one there. *)
Definition keyNumber (cols : list cell) (k : cell) (r : row) : Z :=
  numberOf (keyCell cols k r).

(** Every row has a number under the column [k]. *)
Definition numericColumn (cols : list cell) (k : cell) (rows : list row) : Prop :=
  Forall (fun r => isNumber (keyCell cols k r) = true) rows.

(** [x] may stand in front of [y] in a list sorted in direction [dir]. *)
Definition inDirection (dir : sort_direction) (x y : Z) : Prop :=
  match dir with
  | asc => (x <= y)%Z
  | desc => (y <= x)%Z
  end.

(** What the comparator of [handleSort] computes on two rows that have a
    number under the sort column. *)
Definition numericCompare (cols : list cell) (k : cell) (dir : sort_direction)
           (a b : row) : Z :=
  match dir with
  | asc => (keyNumber cols k a - keyNumber cols k b)%Z
  | desc => (keyNumber cols k b - keyNumber cols k a)%Z
  end.

(** How many times the character [c] occurs in [s]. *)
Fixpoint count (c : ascii) (s : string) : nat :=
  match s with
  | EmptyString => O
  | String a s' => (if Ascii.eqb a c then 1 else 0) + count c s'
  end.

(** The commas in the string forms of the cells of a row. *)
Definition commasIn (P : platform) (r : list cell) : nat :=
  list_sum (map (fun c => count comma (cellString P c)) r).

(** What every state of the screen reached from [start] satisfies: the
    busy flag is set only while a call of [pickFile] is in flight, an
    unmounted screen is not busy, and [columns] is undefined only when there
    is no row. *)
Definition wellFormed (a : app) : Prop :=
  (loading (view a) = true -> (1 <= inFlight a)%nat) /\
  (mounted a = false -> loading (view a) = false) /\
  (columns (view a) = None -> data (view a) = []).

(** The event ends a call of [pickFile] that brings no grid: the picker is
    cancelled, the picker or the read fails, or the decoder rejects the
    content. *)
Definition endsWithoutGrid (P : platform) (e : event) : bool :=
  match e with
  | PickerResolved _ canceled => canceled
  | PickerRejected _ => true
  | ReadRejected _ => true
  | ReadResolved _ content =>
      match parse P content with
      | None => true
      | Some _ => false
      end
  | _ => false
  end.

(** No row has a number under the column [k]. *)
Definition textColumn (cols : list cell) (k : cell) (rows : list row) : Prop :=
  Forall (fun r => isNumber (keyCell cols k r) = false) rows.

(** The string form of what a row has under the sort column. *)
Definition keyString (P : platform) (cols : list cell) (k : cell) (r : row) : string :=
  ToString P (keyCell cols k r).

(** What the comparator of [handleSort] computes on two rows of which at
    least one has no number under the sort column. *)
Definition textCompare (P : platform)
           (cols : list cell) (k : cell) (dir : sort_direction) (a b : row) : Z :=
  match dir with
  | asc => localeCompare P (keyString P cols k a) (keyString P cols k b)
  | desc => localeCompare P (keyString P cols k b) (keyString P cols k a)
  end.

(** The rows are the body of one decoded file, rearranged, under the header
    of that file; or the screen still has its initial empty dataset. *)
Definition fromOneFile (P : platform) (s : session) : Prop :=
  (columns s = Some [] /\ data s = []) \/
  exists content grid,
    parse P content = Some grid /\
    columns s = hd_error grid /\
    Permutation (data s) (tl grid).

(** The session after the two-column table has been loaded. *)
Definition peopleSession : session :=
  mkSession (tl people) (hd_error people) "" noActiveSort false.

(** A loaded session whose rows are in ascending order of age. *)
Definition sortedSession : session :=
  mkSession [ [CStr "Ann"; CNum 25]; [CStr "Bob"; CNum 30] ]
            (Some [CStr "Name"; CStr "Age"]) "" noActiveSort false.

(** The screen with two calls of [pickFile] in flight. *)
Definition twoCallsApp : app :=
  mkApp (setLoading true initial) [] [AwaitingRead; AwaitingPicker] true.

(** ** Facts about the string primitives *)

Module JSFacts.

Lemma startsWith_spec (t s : string) :
  JS.startsWith s t = true <-> exists post, s = (t ++ post)%string.
Proof.
  revert s; induction t as [|b t IH]; intros s; simpl.
  - split; [intros _; now exists s | reflexivity].
  - destruct s as [|a s]; simpl.
    + split; [discriminate | intros [post H]; discriminate].
    + rewrite andb_true_iff, IH, Ascii.eqb_eq. split.
      * intros [-> [post ->]]. now exists post.
      * intros [post H]. injection H as -> ->. split; [reflexivity | now exists post].
Qed.

Lemma includes_unfold (s t : string) :
  JS.includes s t =
  JS.startsWith s t ||
  match s with EmptyString => false | String _ s' => JS.includes s' t end.
Proof. destruct s; reflexivity. Qed.

Lemma includes_spec (s t : string) :
  JS.includes s t = true <->
  exists pre post, s = (pre ++ t ++ post)%string.
Proof.
  induction s as [|a s IH]; rewrite includes_unfold, orb_true_iff.
  - split.
    + intros [H | H]; [|discriminate].
      apply startsWith_spec in H as [post H]. now exists EmptyString, post.
    + intros [[|c pre] [post H]]; [|discriminate].
      left. apply startsWith_spec. now exists post.
  - split.
    + intros [H | H].
      * apply startsWith_spec in H as [post H]. now exists EmptyString, post.
      * apply IH in H as (pre & post & ->). now exists (String a pre), post.
    + intros [[|c pre] [post H]].
      * left. apply startsWith_spec. now exists post.
      * right. apply IH. simpl in H. injection H as _ ->. now exists pre, post.
Qed.

Lemma mapChars_app (f : ascii -> ascii) (a b : string) :
  mapChars f (a ++ b) = (mapChars f a ++ mapChars f b)%string.
Proof. induction a as [|c a IH]; simpl; [reflexivity | now rewrite IH]. Qed.

Lemma mapChars_app_inv (f : ascii -> ascii) (a b s : string) :
  mapChars f s = (a ++ b)%string ->
  exists s1 s2, s = (s1 ++ s2)%string /\
                mapChars f s1 = a /\ mapChars f s2 = b.
Proof.
  revert s; induction a as [|c a IH]; intros s H.
  - now exists EmptyString, s.
  - destruct s as [|d s]; [discriminate|].
    simpl in H. injection H as Hc H.
    destruct (IH _ H) as (s1 & s2 & -> & H1 & H2).
    exists (String d s1), s2. simpl. now rewrite Hc, H1.
Qed.

(** For a mapping that works character by character, mapping both sides
    and searching is the search up to the mapping. *)
Lemma includes_mapChars (f : ascii -> ascii) (s q : string) :
  JS.includes (mapChars f s) (mapChars f q) = true <->
  exists pre mid post,
    s = (pre ++ mid ++ post)%string /\ mapChars f mid = mapChars f q.
Proof.
  rewrite includes_spec. split.
  - intros (pre & post & H).
    apply mapChars_app_inv in H as (s1 & s2 & -> & _ & H).
    apply mapChars_app_inv in H as (m & p & -> & Hm & _).
    now exists s1, m, p.
  - intros (pre & mid & post & -> & H).
    exists (mapChars f pre), (mapChars f post).
    now rewrite !mapChars_app, H.
Qed.

Lemma occurs_app (c : ascii) (a b : string) :
  occurs c (a ++ b) = occurs c a || occurs c b.
Proof.
  induction a as [|d a IH]; simpl; [reflexivity|].
  now rewrite IH, orb_assoc.
Qed.

Lemma split_plain (sep : ascii) (s : string) :
  occurs sep s = false -> JS.split sep s = [s].
Proof.
  induction s as [|a s IH]; simpl; [reflexivity|].
  intros H. apply orb_false_iff in H as [Ha Hs].
  now rewrite Ha, (IH Hs).
Qed.

Lemma split_app_sep (sep : ascii) (p rest : string) :
  occurs sep p = false ->
  JS.split sep (p ++ String sep rest) = p :: JS.split sep rest.
Proof.
  induction p as [|a p IH]; simpl.
  - intros _. now rewrite Ascii.eqb_refl.
  - intros H. apply orb_false_iff in H as [Ha Hp].
    now rewrite Ha, (IH Hp).
Qed.

Lemma join_cons (sep p : string) (rest : list string) :
  rest <> [] -> JS.join sep (p :: rest) = (p ++ sep ++ JS.join sep rest)%string.
Proof. destruct rest; [congruence | reflexivity]. Qed.

(** Splitting a joined array gives the array back, when there is at least
    one part and no part holds the separator. *)
Lemma split_join (sep : ascii) (parts : list string) :
  parts <> [] ->
  Forall (fun p => occurs sep p = false) parts ->
  JS.split sep (JS.join (String sep "") parts) = parts.
Proof.
  induction parts as [|p rest IH]; [congruence|].
  intros _ H. inversion H as [|? ? Hp Hrest]; subst.
  destruct rest as [|p' rest].
  - simpl. now apply split_plain.
  - rewrite join_cons by discriminate.
    change (String sep "" ++ ?x)%string with (String sep x).
    rewrite split_app_sep by assumption.
    f_equal. apply IH; [discriminate | assumption].
Qed.

Lemma occurs_join (c sep : ascii) (parts : list string) :
  Ascii.eqb sep c = false ->
  Forall (fun p => occurs c p = false) parts ->
  occurs c (JS.join (String sep "") parts) = false.
Proof.
  intros Hsep. induction parts as [|p rest IH]; intros H; [reflexivity|].
  inversion H as [|? ? Hp Hrest]; subst.
  destruct rest as [|p' rest]; [exact Hp|].
  rewrite join_cons by discriminate.
  rewrite occurs_app, Hp. simpl. rewrite Hsep. simpl.
  now apply IH.
Qed.

End JSFacts.

(** ** Facts about the sort *)

Module SortFacts.

Section Generic.
Context {A : Type} (cmp : A -> A -> Z).

Lemma insert_perm (x : A) (l : list A) :
  Permutation (JS.insert cmp x l) (x :: l).
Proof.
  induction l as [|y l IH]; simpl; [apply Permutation_refl|].
  destruct (cmp x y >? 0)%Z; [|apply Permutation_refl].
  eapply perm_trans; [apply perm_skip, IH | apply perm_swap].
Qed.

Lemma sort_perm (l : list A) : Permutation (JS.stableSort cmp l) l.
Proof.
  induction l as [|x l IH]; simpl; [constructor|].
  eapply perm_trans; [apply insert_perm | now apply perm_skip].
Qed.

Lemma sort_length (l : list A) : List.length (JS.stableSort cmp l) = List.length l.
Proof. apply Permutation_length, sort_perm. Qed.

Lemma before_cons_iff (x y z : A) (l : list A) :
  before x y (z :: l) <-> (z = x /\ In y l) \/ before x y l.
Proof.
  split.
  - intros ([|w l1] & l2 & l3 & H); simpl in H; injection H as -> ->.
    + left. split; [reflexivity|]. apply in_or_app. right. now left.
    + right. now exists l1, l2, l3.
  - intros [[-> Hy] | (l1 & l2 & l3 & ->)].
    + apply in_split in Hy as (l2 & l3 & ->). now exists [], l2, l3.
    + now exists (z :: l1), l2, l3.
Qed.

Lemma before_nil (x y : A) : ~ before x y [].
Proof. intros ([|w l1] & l2 & l3 & H); discriminate. Qed.

Lemma insert_In (a y : A) (l : list A) : In y l -> In y (JS.insert cmp a l).
Proof.
  intros H. eapply Permutation_in; [apply Permutation_sym, insert_perm|].
  now right.
Qed.

(** Inserting an element does not exchange two others. *)
Lemma insert_before_old (a x y : A) (l : list A) :
  before x y l -> before x y (JS.insert cmp a l).
Proof.
  induction l as [|z l IH]; intros H; [now apply before_nil in H|].
  simpl. destruct (cmp a z >? 0)%Z.
  - apply before_cons_iff. apply before_cons_iff in H as [[-> Hy] | H].
    + left. split; [reflexivity | now apply insert_In].
    + right. now apply IH.
  - apply before_cons_iff. now right.
Qed.

(** The inserted element stops in front of whatever it is not strictly
    greater than. *)
Lemma insert_before_new (a y : A) (l : list A) :
  In y l -> (cmp a y <= 0)%Z -> before a y (JS.insert cmp a l).
Proof.
  induction l as [|z l IH]; intros Hy Hle; [destruct Hy|].
  simpl. destruct (cmp a z >? 0)%Z eqn:Hz.
  - apply before_cons_iff. right. apply IH; [|exact Hle].
    destruct Hy as [-> | Hy]; [|exact Hy]. apply Z.gtb_lt in Hz. lia.
  - apply before_cons_iff. left. now split.
Qed.

(** Stability: [x] in front of [y] and not greater than [y] stays in
    front of it. *)
Lemma sort_keeps_order (x y : A) (l : list A) :
  before x y l -> (cmp x y <= 0)%Z -> before x y (JS.stableSort cmp l).
Proof.
  induction l as [|z l IH]; intros H Hle; [now apply before_nil in H|].
  simpl. apply before_cons_iff in H as [[-> Hy] | H].
  - apply insert_before_new; [|exact Hle].
    eapply Permutation_in; [apply Permutation_sym, sort_perm | exact Hy].
  - now apply insert_before_old, IH.
Qed.


Lemma before_In (x y : A) (l : list A) :
  before x y l -> In x l /\ In y l.
Proof.
  intros (l1 & l2 & l3 & ->). split.
  - apply in_or_app. right. now left.
  - apply in_or_app. right. right. apply in_or_app. right. now left.
Qed.

Lemma before_asym (x y : A) (l : list A) :
  NoDup l -> before x y l -> before y x l -> False.
Proof.
  induction 1 as [|z l Hz _ IH]; intros Hxy Hyx; [now apply before_nil in Hxy|].
  apply before_cons_iff in Hxy as [[-> Hy] | Hxy];
    apply before_cons_iff in Hyx as [[-> Hx] | Hyx].
  - contradiction.
  - apply before_In in Hyx as [_ Hx]. contradiction.
  - apply before_In in Hxy as [_ Hy]. contradiction.
  - now apply IH.
Qed.

Lemma before_total (x y : A) (l : list A) :
  In x l -> In y l -> x = y \/ before x y l \/ before y x l.
Proof.
  induction l as [|z l IH]; intros Hx Hy; [destruct Hx|].
  destruct Hx as [-> | Hx], Hy as [-> | Hy].
  - now left.
  - right. left. apply before_cons_iff. now left.
  - right. right. apply before_cons_iff. now left.
  - destruct (IH Hx Hy) as [H | [H | H]]; [now left | |].
    + right. left. apply before_cons_iff. now right.
    + right. right. apply before_cons_iff. now right.
Qed.

Lemma sorted_before (R : A -> A -> Prop) (x y : A) (l : list A) :
  StronglySorted R l -> before x y l -> R x y.
Proof.
  induction 1 as [|z l _ IH Hall]; intros H; [now apply before_nil in H|].
  apply before_cons_iff in H as [[-> Hy] | H]; [|now apply IH].
  rewrite Forall_forall in Hall. now apply Hall.
Qed.

Lemma before_sorted (R : A -> A -> Prop) (l : list A) :
  (forall x y, before x y l -> R x y) -> StronglySorted R l.
Proof.
  induction l as [|z l IH]; intros H; constructor.
  - apply IH. intros x y Hxy. apply H, before_cons_iff. now right.
  - apply Forall_forall. intros y Hy. apply H, before_cons_iff. now left.
Qed.

(** Two arrangements of the same elements, both in order for a relation
    that never holds both ways, are the same list. *)
Lemma sorted_perm_unique (R : A -> A -> Prop) (l1 l2 : list A) :
  (forall x y, R x y -> R y x -> False) ->
  StronglySorted R l1 -> StronglySorted R l2 -> Permutation l1 l2 ->
  l1 = l2.
Proof.
  intros Hasym H1. revert l2.
  induction H1 as [|x l1 Hs1 IH Hall1]; intros l2 H2 Hp.
  - apply Permutation_nil in Hp. now subst.
  - destruct H2 as [|y l2 Hs2 Hall2];
      [apply Permutation_sym, Permutation_nil in Hp; discriminate|].
    rewrite Forall_forall in Hall1, Hall2.
    assert (x = y) as ->.
    { assert (Hx : In x (y :: l2))
        by (eapply Permutation_in; [exact Hp | now left]).
      assert (Hy : In y (x :: l1))
        by (eapply Permutation_in; [apply Permutation_sym, Hp | now left]).
      destruct Hx as [-> | Hx]; [reflexivity|].
      destruct Hy as [-> | Hy]; [reflexivity|].
      exfalso. apply (Hasym x y); [now apply Hall1 | now apply Hall2]. }
    f_equal. apply IH; [exact Hs2 | now apply Permutation_cons_inv in Hp].
Qed.

(** *** There is one stable sort

    For a comparator that is a consistent ordering, the result of
    [JS.stableSort] is in order, and it is the only arrangement of the array
    that is in order and keeps equal elements in their original order: on
    such comparators every stable sort computes what [JS.stableSort]
    computes. *)
Section Consistent.

Hypothesis cmp_sym : forall x y, Z.sgn (cmp y x) = (- Z.sgn (cmp x y))%Z.
Hypothesis cmp_trans :
  forall x y z, (cmp x y <= 0)%Z -> (cmp y z <= 0)%Z -> (cmp x z <= 0)%Z.

Let le (x y : A) : Prop := (cmp x y <= 0)%Z.

Lemma insert_sorted (x : A) (l : list A) :
  StronglySorted le l -> StronglySorted le (JS.insert cmp x l).
Proof.
  induction 1 as [|y l Hs IH Hall]; simpl.
  - repeat constructor.
  - destruct (cmp x y >? 0)%Z eqn:Hxy.
    + constructor; [exact IH|].
      eapply Permutation_Forall; [apply Permutation_sym, insert_perm|].
      constructor; [|exact Hall].
      apply Z.gtb_lt in Hxy. unfold le. pose proof (cmp_sym x y). lia.
    + assert (Hle : le x y).
      { unfold le. destruct (Z.gtb_spec (cmp x y) 0); [discriminate | lia]. }
      constructor; [now constructor|].
      constructor; [exact Hle|].
      eapply Forall_impl; [|exact Hall].
      intros z Hz. exact (cmp_trans _ _ _ Hle Hz).
Qed.

Lemma sort_sorted (l : list A) : StronglySorted le (JS.stableSort cmp l).
Proof.
  induction l as [|x l IH]; simpl; [constructor | now apply insert_sorted].
Qed.

Lemma stable_sort_unique (l l' : list A) :
  NoDup l ->
  Permutation l' l ->
  StronglySorted le l' ->
  (forall x y, before x y l -> cmp x y = 0%Z -> before x y l') ->
  l' = JS.stableSort cmp l.
Proof.
  intros Hnd Hp Hs Hst.
  set (R := fun x y => (cmp x y < 0)%Z \/ (cmp x y = 0%Z /\ before x y l)).
  assert (Hkey : forall m,
             Permutation m l -> StronglySorted le m ->
             (forall x y, before x y l -> cmp x y = 0%Z -> before x y m) ->
             StronglySorted R m).
  { intros m Hpm Hsm Hstm. apply before_sorted. intros x y Hxy.
    assert (Hndm : NoDup m)
      by (eapply Permutation_NoDup; [apply Permutation_sym, Hpm | exact Hnd]).
    pose proof (sorted_before le x y m Hsm Hxy) as Hle. unfold le in Hle.
    destruct (Z.eq_dec (cmp x y) 0) as [H0 | Hn0]; [|left; lia].
    right. split; [exact H0|].
    destruct (before_In _ _ _ Hxy) as [Hx Hy].
    destruct (before_total x y l) as [-> | [H | H]];
      try (eapply Permutation_in; [exact Hpm | eassumption]).
    - exfalso. now apply (before_asym y y m).
    - exact H.
    - exfalso. apply (before_asym x y m Hndm Hxy), Hstm; [exact H|].
      pose proof (cmp_sym x y). rewrite H0 in *. simpl in *.
      now apply Z.sgn_null_iff. }
  apply (sorted_perm_unique R).
  - intros x y [Hxy | [Hxy Hb]] [Hyx | [Hyx Hb']];
      pose proof (cmp_sym x y) as Hsgn.
    + rewrite (Z.sgn_neg _ Hxy), (Z.sgn_neg _ Hyx) in Hsgn. discriminate.
    + rewrite Hyx, (Z.sgn_neg _ Hxy) in Hsgn. discriminate.
    + rewrite Hxy, (Z.sgn_neg _ Hyx) in Hsgn. discriminate.
    + exact (before_asym x y l Hnd Hb Hb').
  - now apply Hkey.
  - apply Hkey; [apply sort_perm | apply sort_sorted|].
    intros x y Hb H0. apply sort_keeps_order; [exact Hb | lia].
  - eapply perm_trans; [exact Hp | apply Permutation_sym, sort_perm].
Qed.

End Consistent.

End Generic.

Lemma before_map {A B : Type} (f : A -> B) (x y : A) (l : list A) :
  before x y l -> before (f x) (f y) (map f l).
Proof.
  intros (l1 & l2 & l3 & ->).
  exists (map f l1), (map f l2), (map f l3).
  now rewrite map_app, (map_cons f x), map_app, (map_cons f y).
Qed.




Lemma map_fst_combine {A B : Type} (l : list A) (l' : list B) :
  List.length l = List.length l' -> map fst (combine l l') = l.
Proof.
  revert l'; induction l as [|a l IH]; intros [|b l'] H; simpl in *;
    try discriminate; [reflexivity|].
  f_equal. apply IH. lia.
Qed.





Lemma numbered_fst (rows : list row) :
  map fst (numbered rows) = seq 0 (List.length rows).
Proof. apply map_fst_combine, length_seq. Qed.

Lemma numbered_NoDup (rows : list row) : NoDup (numbered rows).
Proof.
  apply (NoDup_map_inv fst). rewrite numbered_fst. apply seq_NoDup.
Qed.

(** Whatever stable sort the engine runs, on a comparator that is a
    consistent ordering of the rows it leaves them in the order
    [JS.stableSort] leaves them. *)
Lemma any_stable_sort_agrees (cmp : row -> row -> Z) (rows : list row)
      (sorted : list (nat * row)) :
  (forall a b, Z.sgn (cmp b a) = (- Z.sgn (cmp a b))%Z) ->
  (forall a b c, (cmp a b <= 0)%Z -> (cmp b c <= 0)%Z -> (cmp a c <= 0)%Z) ->
  Permutation sorted (numbered rows) ->
  StronglySorted (fun x y => (cmp (snd x) (snd y) <= 0)%Z) sorted ->
  (forall x y, before x y (numbered rows) -> cmp (snd x) (snd y) = 0%Z ->
               before x y sorted) ->
  sorted = JS.stableSort (fun x y => cmp (snd x) (snd y)) (numbered rows).
Proof.
  intros Hsym Htrans Hp Hs Hst.
  apply (stable_sort_unique (fun x y => cmp (snd x) (snd y))); auto.
  - intros x y z. apply Htrans.
  - apply numbered_NoDup.
Qed.

End SortFacts.

(** ** The sort of the engine *)

Module EngineSort.

Section Generic.
Context {A : Type} (cmp : A -> A -> Z).

Lemma consistentOn_cons (x : A) (l : list A) :
  consistentOn cmp (x :: l) -> consistentOn cmp l.
Proof.
  intros [Hs Ht]. split.
  - intros a b Ha Hb. apply Hs; now right.
  - intros a b c Ha Hb Hc. apply Ht; now right.
Qed.

Lemma consistentOn_perm (l l' : list A) :
  Permutation l l' -> consistentOn cmp l -> consistentOn cmp l'.
Proof.
  intros Hp [Hs Ht].
  assert (Hin : forall a, In a l' -> In a l)
    by (intros a; apply Permutation_in, Permutation_sym, Hp).
  split.
  - intros a b Ha Hb. apply Hs; now apply Hin.
  - intros a b c Ha Hb Hc. apply Ht; now apply Hin.
Qed.

Lemma consistentOn_incl (l l' : list A) :
  incl l' l -> consistentOn cmp l -> consistentOn cmp l'.
Proof.
  intros Hin [Hs Ht]. split.
  - intros a b Ha Hb. apply Hs; now apply Hin.
  - intros a b c Ha Hb Hc. apply Ht; now apply Hin.
Qed.

Lemma insert_sorted_on (x : A) (m : list A) :
  (forall y, In y m -> Z.sgn (cmp y x) = (- Z.sgn (cmp x y))%Z) ->
  (forall y z, In y m -> In z m ->
               (cmp x y <= 0)%Z -> (cmp y z <= 0)%Z -> (cmp x z <= 0)%Z) ->
  StronglySorted (fun a b => (cmp a b <= 0)%Z) m ->
  StronglySorted (fun a b => (cmp a b <= 0)%Z) (JS.insert cmp x m).
Proof.
  intros Hs Ht Hm. induction Hm as [|y m Hm IH Hall]; simpl.
  - repeat constructor.
  - destruct (cmp x y >? 0)%Z eqn:Hxy.
    + constructor.
      * apply IH.
        -- intros z Hz. apply Hs. now right.
        -- intros z w Hz Hw. apply Ht; now right.
      * eapply Permutation_Forall; [apply Permutation_sym, SortFacts.insert_perm|].
        constructor; [|exact Hall].
        apply Z.gtb_lt in Hxy. pose proof (Hs y (or_introl eq_refl)) as H.
        destruct (Z.sgn_spec (cmp x y)) as [[? E]|[[? E]|[? E]]];
          destruct (Z.sgn_spec (cmp y x)) as [[? E']|[[? E']|[? E']]]; lia.
    + assert (Hle : (cmp x y <= 0)%Z)
        by (destruct (Z.gtb_spec (cmp x y) 0); [discriminate | lia]).
      constructor; [now constructor|].
      constructor; [exact Hle|].
      rewrite Forall_forall in *. intros z Hz.
      apply (Ht y z); auto; [now left | now right].
Qed.

(** On a comparator that is a consistent ordering of the array, the stable
    sort leaves the array in order. *)
Lemma sort_sorted_on (l : list A) :
  consistentOn cmp l ->
  StronglySorted (fun a b => (cmp a b <= 0)%Z) (JS.stableSort cmp l).
Proof.
  induction l as [|x l IH]; intros Hc; simpl; [constructor|].
  assert (Hin : forall y, In y (JS.stableSort cmp l) -> In y (x :: l)).
  { intros y Hy. right.
    eapply Permutation_in; [apply SortFacts.sort_perm | exact Hy]. }
  destruct Hc as [Hs Ht].
  apply insert_sorted_on.
  - intros y Hy. apply Hs; [now left | now apply Hin].
  - intros y z Hy Hz. apply Ht; [now left | now apply Hin | now apply Hin].
  - apply IH. now apply (consistentOn_cons x); split.
Qed.

Lemma before_rev (x y : A) (l : list A) :
  before x y (rev l) -> before y x l.
Proof.
  intros (l1 & l2 & l3 & H).
  exists (rev l3), (rev l2), (rev l1).
  rewrite <- (rev_involutive l), H.
  rewrite rev_app_distr. simpl. rewrite rev_app_distr. simpl.
  now rewrite <- !app_assoc.
Qed.

Lemma strictly_before_trans (l : list A) (x y z : A) :
  consistentOn cmp l -> In x l -> In y l -> In z l ->
  (cmp y x < 0)%Z -> (cmp z y < 0)%Z -> (cmp z x < 0)%Z.
Proof.
  intros [Hs Ht] Hx Hy Hz Hyx Hzy.
  assert (Hzx : (cmp z x <= 0)%Z) by (apply (Ht z y x); auto; lia).
  destruct (Z.eq_dec (cmp z x) 0) as [H0|]; [exfalso|lia].
  pose proof (Hs z x Hz Hx) as E1. rewrite H0 in E1. simpl in E1.
  apply Z.sgn_null_iff in E1.
  assert (Hxy : (cmp x y <= 0)%Z) by (apply (Ht x z y); auto; lia).
  pose proof (Hs x y Hx Hy) as E2.
  destruct (Z.sgn_spec (cmp x y)) as [[? E]|[[? E]|[? E]]];
    destruct (Z.sgn_spec (cmp y x)) as [[? E']|[[? E']|[? E']]]; lia.
Qed.

Lemma descendingRun_sorted (l : list A) :
  consistentOn cmp l -> descendingRun cmp l = true ->
  StronglySorted (fun a b => (cmp b a < 0)%Z) l.
Proof.
  induction l as [|a l IH]; intros Hc Hd; [constructor|].
  destruct l as [|b l]; [repeat constructor|].
  cbn [descendingRun] in Hd. apply andb_true_iff in Hd as [Hba Hd].
  apply Z.ltb_lt in Hba.
  pose proof (IH (consistentOn_cons a _ Hc) Hd) as Hs.
  constructor; [exact Hs|].
  constructor; [exact Hba|].
  inversion Hs as [|? ? _ Hall]; subst.
  rewrite Forall_forall in *. intros z Hz.
  apply (strictly_before_trans (a :: b :: l) a b z); auto.
  - now left.
  - right. now left.
  - right. now right.
Qed.

Lemma runReversingSort_perm (l : list A) :
  Permutation (runReversingSort cmp l) l.
Proof.
  unfold runReversingSort. destruct (descendingRun cmp l).
  - apply Permutation_sym, Permutation_rev.
  - apply SortFacts.sort_perm.
Qed.

(** On a consistent ordering a strictly descending run has no two equal
    elements, and its reverse is the sorted array. *)
Lemma runReversingSort_consistent (l : list A) :
  consistentOn cmp l -> runReversingSort cmp l = JS.stableSort cmp l.
Proof.
  intros Hc. unfold runReversingSort.
  destruct (descendingRun cmp l) eqn:Hd; [|reflexivity].
  pose proof (descendingRun_sorted l Hc Hd) as Hdesc.
  pose proof Hc as [Hs Ht].
  assert (Hirr : forall x, In x l -> ~ (cmp x x < 0)%Z).
  { intros x Hx H. pose proof (Hs x x Hx Hx).
    destruct (Z.sgn_spec (cmp x x)) as [[? E]|[[? E]|[? E]]]; lia. }
  assert (Hnd : NoDup l).
  { clear Hd Hs Ht Hc. induction Hdesc as [|a l Hd IH Hall]; constructor.
    - intros Ha. rewrite Forall_forall in Hall.
      apply (Hirr a); [now left | now apply Hall].
    - apply IH. intros x Hx. apply Hirr. now right. }
  apply (SortFacts.sorted_perm_unique
           (fun x y => In x l /\ In y l /\ (cmp x y < 0)%Z)).
  - intros x y (Hx & Hy & Hxy) (_ & _ & Hyx). pose proof (Hs x y Hx Hy).
    destruct (Z.sgn_spec (cmp x y)) as [[? E]|[[? E]|[? E]]];
      destruct (Z.sgn_spec (cmp y x)) as [[? E']|[[? E']|[? E']]]; lia.
  - apply SortFacts.before_sorted. intros x y Hb.
    destruct (SortFacts.before_In _ _ _ Hb) as [Hx Hy].
    apply in_rev in Hx. apply in_rev in Hy.
    apply before_rev in Hb. repeat split; auto.
    exact (SortFacts.sorted_before _ _ _ _ Hdesc Hb).
  - apply SortFacts.before_sorted. intros x y Hb.
    assert (Hp : Permutation (JS.stableSort cmp l) l) by apply SortFacts.sort_perm.
    destruct (SortFacts.before_In _ _ _ Hb) as [Hx Hy].
    apply (Permutation_in _ Hp) in Hx. apply (Permutation_in _ Hp) in Hy.
    repeat split; auto.
    pose proof (SortFacts.sorted_before _ _ _ _ (sort_sorted_on l Hc) Hb) as Hle.
    simpl in Hle.
    destruct (SortFacts.before_total x y l Hx Hy) as [-> | [H | H]].
    + exfalso. apply (SortFacts.before_asym y y (JS.stableSort cmp l)); auto.
      eapply Permutation_NoDup; [apply Permutation_sym, Hp | exact Hnd].
    + pose proof (SortFacts.sorted_before _ _ _ _ Hdesc H) as Hyx. simpl in Hyx.
      pose proof (Hs x y Hx Hy).
      destruct (Z.sgn_spec (cmp x y)) as [[? E]|[[? E]|[? E]]];
        destruct (Z.sgn_spec (cmp y x)) as [[? E']|[[? E']|[? E']]]; lia.
    + exact (SortFacts.sorted_before _ _ _ _ Hdesc H).
  - eapply perm_trans; [apply Permutation_sym, Permutation_rev|].
    apply Permutation_sym, SortFacts.sort_perm.
Qed.

End Generic.

End EngineSort.

Lemma sampleLowerCase_ascii (s : string) :
  isAscii s = true -> sampleLowerCase s = mapChars asciiLowerChar s.
Proof.
  intros H. unfold sampleLowerCase.
  destruct (String.eqb_spec s "ΟΔΟΣ") as [->|_]; [discriminate H|].
  destruct (String.eqb_spec s "Σ") as [->|_]; [discriminate H|].
  reflexivity.
Qed.

(** The platform of the examples. *)
Definition samplePlatform : platform :=
  mkPlatform sampleDecoder sampleLowerCase decimalString codeUnitCompare
             runReversingSort sampleLowerCase_ascii
             EngineSort.runReversingSort_perm
             EngineSort.runReversingSort_consistent.

(** ** Properties of the session *)

Lemma strictEq_spec (a b : cell) : strictEq a b = true <-> a = b.
Proof.
  destruct a as [x|s], b as [y|t]; simpl.
  - rewrite Z.eqb_eq. split; congruence.
  - split; discriminate.
  - split; discriminate.
  - rewrite String.eqb_eq. split; congruence.
Qed.

(** A cell matches when the lower-case form of the query occurs in the
    lower-case form of its string. *)
Lemma cellMatches_spec (P : platform) (q : string) (c : cell) :
  cellMatches P q c = true <->
  occursIn (toLowerCase P q) (toLowerCase P (cellString P c)).
Proof. apply JSFacts.includes_spec. Qed.

Lemma asciiLowerChar_code (c : ascii) :
  nat_of_ascii (asciiLowerChar c) =
  if isUpperCode (nat_of_ascii c) then (nat_of_ascii c + 32)%nat
  else nat_of_ascii c.
Proof.
  unfold asciiLowerChar. destruct (isUpperCode (nat_of_ascii c)) eqn:Hu;
    [|reflexivity].
  apply nat_ascii_embedding. unfold isUpperCode in Hu.
  apply andb_true_iff in Hu as [_ Hu]. apply Nat.leb_le in Hu. lia.
Qed.

(** Two characters have the same lower-case form exactly when they are the
    same letter. *)
Lemma asciiLowerChar_eq_iff (c d : ascii) :
  asciiLowerChar c = asciiLowerChar d <-> sameLetter c d = true.
Proof.
  assert (Hinj : asciiLowerChar c = asciiLowerChar d <->
                 nat_of_ascii (asciiLowerChar c) = nat_of_ascii (asciiLowerChar d)).
  { split; [now intros ->|]. intros H.
    rewrite <- (ascii_nat_embedding (asciiLowerChar c)), H.
    apply ascii_nat_embedding. }
  assert (Hcd : c = d <-> nat_of_ascii c = nat_of_ascii d).
  { split; [now intros ->|]. intros H.
    rewrite <- (ascii_nat_embedding c), H. apply ascii_nat_embedding. }
  rewrite Hinj, !asciiLowerChar_code. unfold sameLetter, isUpperCode.
  destruct (Nat.leb_spec 65 (nat_of_ascii c)), (Nat.leb_spec (nat_of_ascii c) 90),
    (Nat.leb_spec 65 (nat_of_ascii d)), (Nat.leb_spec (nat_of_ascii d) 90),
    (Nat.eqb_spec (nat_of_ascii c) (nat_of_ascii d)),
    (Nat.eqb_spec (nat_of_ascii d) (nat_of_ascii c + 32)),
    (Nat.eqb_spec (nat_of_ascii c) (nat_of_ascii d + 32));
    simpl; split; intros; try reflexivity; try discriminate; lia.
Qed.

Lemma mapChars_asciiLower_eq_iff (a b : string) :
  mapChars asciiLowerChar a = mapChars asciiLowerChar b <->
  equalIgnoringCase a b = true.
Proof.
  revert b; induction a as [|c a IH]; intros [|d b]; simpl;
    try (split; [reflexivity | reflexivity]);
    try (split; discriminate).
  rewrite andb_true_iff, <- IH, <- asciiLowerChar_eq_iff.
  split; [intros [= -> ->]; now split | intros [-> ->]; reflexivity].
Qed.

(** On ASCII text a cell matches exactly when its string form contains the
    query, letter case ignored. *)
Lemma cellMatches_ascii (P : platform) (q : string) (c : cell) :
  isAscii q = true ->
  isAscii (cellString P c) = true ->
  (cellMatches P q c = true <-> containsIgnoringCase (cellString P c) q).
Proof.
  intros Hq Hc. unfold cellMatches, containsIgnoringCase. fold (cellString P c).
  rewrite (toLowerCase_ascii P _ Hq), (toLowerCase_ascii P _ Hc).
  rewrite JSFacts.includes_mapChars.
  split; intros (pre & mid & post & H1 & H2); exists pre, mid, post;
    (split; [exact H1|]); now apply mapChars_asciiLower_eq_iff.
Qed.

Lemma toLowerCase_empty (P : platform) : toLowerCase P "" = "".
Proof. now rewrite toLowerCase_ascii. Qed.

(** Every cell matches the empty query. *)
Lemma cellMatches_empty (P : platform) (c : cell) : cellMatches P "" c = true.
Proof.
  unfold cellMatches. rewrite toLowerCase_empty.
  now rewrite JSFacts.includes_unfold.
Qed.

Lemma existsb_empty_query (P : platform) (r : row) :
  existsb (cellMatches P "") r = nonEmpty r.
Proof. destruct r as [|c r]; simpl; [reflexivity | now rewrite cellMatches_empty]. Qed.

Lemma filter_all {A : Type} (f : A -> bool) (l : list A) :
  Forall (fun x => f x = true) l -> filter f l = l.
Proof.
  induction 1 as [|x l Hx _ IH]; simpl; [reflexivity | now rewrite Hx, IH].
Qed.

Lemma filter_filter_implied {A : Type} (f g : A -> bool) (l : list A) :
  (forall x, f x = true -> g x = true) -> filter f (filter g l) = filter f l.
Proof.
  intros H. induction l as [|x l IH]; simpl; [reflexivity|].
  destruct (g x) eqn:Hg; simpl.
  - now rewrite IH.
  - destruct (f x) eqn:Hf; [|exact IH]. apply H in Hf. congruence.
Qed.

Lemma existsb_nonEmpty (P : platform) (q : string) (r : row) :
  existsb (cellMatches P q) r = true -> nonEmpty r = true.
Proof. destruct r; [discriminate | reflexivity]. Qed.

Lemma inFlight_setStage (l : list stage) (i : nat) (old st : stage) :
  nth_error l i = Some old ->
  (List.length (filter isInFlight (setStage i st l)) + Nat.b2n (isInFlight old) =
   List.length (filter isInFlight l) + Nat.b2n (isInFlight st))%nat.
Proof.
  revert i; induction l as [|x l IH]; intros [|i] H; simpl in H; try discriminate.
  - injection H as ->. simpl. destruct (isInFlight old), (isInFlight st); simpl; lia.
  - simpl. specialize (IH i H). destruct (isInFlight x); simpl; lia.
Qed.

Lemma nth_error_setStage_eq (l : list stage) (i : nat) (old st : stage) :
  nth_error l i = Some old -> nth_error (setStage i st l) i = Some st.
Proof.
  revert i; induction l as [|x l IH]; intros [|i] H; simpl in *;
    try discriminate; [reflexivity | now apply IH].
Qed.

Lemma nth_error_setStage_ne (l : list stage) (i j : nat) (st : stage) :
  j <> i -> nth_error (setStage i st l) j = nth_error l j.
Proof.
  revert i j; induction l as [|x l IH]; intros [|i] [|j] H; simpl;
    try reflexivity; try congruence.
  apply IH. congruence.
Qed.

(** What the end of call [i] does on a displayed screen: the state [v] is
    set with the busy flag off, the call is over, the other calls are where
    they were. *)
Lemma finish_spec (a : app) (i : nat) (st : stage) (v : session)
      (logs : list log_entry) :
  mounted a = true ->
  nth_error (calls a) i = Some st ->
  isInFlight st = true ->
  view (finish i a v logs) = setLoading false v /\
  loading (view (finish i a v logs)) = false /\
  nth_error (calls (finish i a v logs)) i = Some Finished /\
  (forall j, j <> i ->
             nth_error (calls (finish i a v logs)) j = nth_error (calls a) j) /\
  S (inFlight (finish i a v logs)) = inFlight a.
Proof.
  intros Hm Hi Hst. unfold finish, update. rewrite Hm. simpl.
  split; [reflexivity|]. split; [reflexivity|].
  split; [exact (nth_error_setStage_eq _ _ _ _ Hi)|].
  split; [intros j Hj; now apply nth_error_setStage_ne|].
  pose proof (inFlight_setStage _ _ _ Finished Hi) as H.
  unfold inFlight. simpl. rewrite Hst in H. simpl in H. lia.
Qed.

Section Properties.

Variable P : platform.

(** C1 (as amended).  A successful load stores the first row of the grid
    in [columns] and the remaining rows in [data], and leaves the filter
    query and the sort state exactly as they were before the load. *)
Theorem processFile_keeps_filter_and_sort
        (s : session) (content : string) (grid : list row) :
  parse P content = Some grid ->
  searchQuery (fst (processFile P s content)) = searchQuery s /\
  sortConfig (fst (processFile P s content)) = sortConfig s /\
  columns (fst (processFile P s content)) = hd_error grid /\
  data (fst (processFile P s content)) = tl grid.
Proof.
  intros H. unfold processFile. rewrite H. simpl. repeat split.
Qed.

(** C2.  When the decoder rejects the content, the load reports the parse
    error and the dataset, columns and rows, is what it was before the
    call. *)
Theorem processFile_rejected_keeps_dataset (s : session) (content : string) :
  parse P content = None ->
  snd (processFile P s content) = [ErrorProcessingFile] /\
  columns (fst (processFile P s content)) = columns s /\
  data (fst (processFile P s content)) = data s.
Proof.
  intros H. unfold processFile. rewrite H. simpl. repeat split.
Qed.

(** The same for a load that goes through [pickFile]: the call ends, the
    error is on the console and the whole view but the busy flag is
    untouched. *)
Lemma step_read_rejected (a a' : app) (i : nat) (content : string) :
  parse P content = None ->
  mounted a = true ->
  step P a (ReadResolved i content) = Some a' ->
  view a' = setLoading false (view a) /\
  console a' = console a ++ [ErrorProcessingFile].
Proof.
  intros H Hm. simpl. unfold processFile. rewrite H.
  destruct (nth_error (calls a) i) as [[| |]|]; try discriminate.
  unfold finish, update. rewrite Hm. intros [= <-]. split; reflexivity.
Qed.

Lemma handleSort_sortConfig (s : session) (k : cell) :
  sortConfig (handleSort P s k) =
  mkSortConfig (Some k) (nextDirection (sortConfig s) k).
Proof.
  unfold handleSort. destruct (columns s); [reflexivity|].
  destruct (List.length (data s) <? 2)%nat; reflexivity.
Qed.

(** C3.  After [sort(c)] the active column is [c]; the direction is the
    previous one flipped when [c] was already the active column, and
    ascending when another column, or none, was active. *)
Theorem handleSort_toggle (s : session) (c : cell) :
  key (sortConfig (handleSort P s c)) = Some c /\
  ((key (sortConfig s) = Some c /\
    direction (sortConfig (handleSort P s c)) =
    flip (direction (sortConfig s)))
   \/
   (key (sortConfig s) <> Some c /\
    direction (sortConfig (handleSort P s c)) = asc)).
Proof.
  rewrite handleSort_sortConfig. simpl. split; [reflexivity|].
  unfold nextDirection.
  destruct (key (sortConfig s)) as [k'|] eqn:Hk.
  - destruct (strictEq k' c) eqn:He.
    + apply strictEq_spec in He. subst k'. left. split; [reflexivity|].
      now destruct (direction (sortConfig s)).
    + right. split.
      * intros [= ->]. assert (strictEq c c = true) by now apply strictEq_spec.
        congruence.
      * now destruct (direction (sortConfig s)).
  - right. split; [discriminate|]. now destruct (direction (sortConfig s)).
Qed.





(** On a column of numbers the comparator is a consistent ordering. *)
Lemma numericColumn_consistentOn (cols : list cell) (k : cell)
      (dir : sort_direction) (rows : list row) :
  Forall (fun r => isNumber (keyCell cols k r) = true) rows ->
  consistentOn (compareFn P cols k dir) rows.
Proof.
  intros H. rewrite Forall_forall in H.
  assert (Hnum : forall a b, In a rows -> In b rows ->
                   compareFn P cols k dir a b =
                   match dir with
                   | asc => (numberOf (keyCell cols k a) - numberOf (keyCell cols k b))%Z
                   | desc => (numberOf (keyCell cols k b) - numberOf (keyCell cols k a))%Z
                   end).
  { intros a b Ha Hb. apply H in Ha. apply H in Hb.
    unfold compareFn, keyCell in *.
    destruct (JS.at_ a _) as [[x|u]|]; try discriminate.
    destruct (JS.at_ b _) as [[y|v]|]; try discriminate.
    reflexivity. }
  split.
  - intros x y Hx Hy. rewrite !Hnum by assumption.
    rewrite <- Z.sgn_opp. f_equal. destruct dir; lia.
  - intros x y z Hx Hy Hz. rewrite !Hnum by assumption. destruct dir; lia.
Qed.

Lemma handleSort_data (s : session) (k : cell) (cols : list cell) :
  columns s = Some cols ->
  consistentOn (compareFn P cols k (nextDirection (sortConfig s) k)) (data s) ->
  data (handleSort P s k) =
  JS.stableSort (compareFn P cols k (nextDirection (sortConfig s) k)) (data s).
Proof.
  intros H Hc. unfold handleSort. rewrite H. simpl.
  now apply arraySort_consistent.
Qed.


(** C5 (as amended).  A row is in the projection exactly when it is a row
    of the dataset and one of its cells has a string form whose lower-case
    form contains the lower-case form of the query.  When the query and the
    string forms of the cells of the row are ASCII text, this is the same
    as: one of its cells has a string form that contains the query, letter
    case ignored. *)
Theorem filteredData_spec (s : session) (r : row) :
  (In r (filteredData P s) <->
   In r (data s) /\
   exists c, In c r /\
             occursIn (toLowerCase P (searchQuery s))
                      (toLowerCase P (cellString P c))) /\
  (isAscii (searchQuery s) = true ->
   Forall (fun c => isAscii (cellString P c) = true) r ->
   (In r (filteredData P s) <->
    In r (data s) /\
    exists c, In c r /\ containsIgnoringCase (cellString P c) (searchQuery s))).
Proof.
  unfold filteredData. rewrite filter_In, existsb_exists. split.
  - split; intros [Hr (c & Hc & Hm)];
      (split; [exact Hr | exists c; split; [exact Hc|]]);
      now apply cellMatches_spec.
  - intros Hq Hcells. rewrite Forall_forall in Hcells.
    split; intros [Hr (c & Hc & Hm)];
      (split; [exact Hr | exists c; split; [exact Hc|]]);
      now apply (cellMatches_ascii P _ c Hq (Hcells c Hc)).
Qed.

Lemma filteredData_nonEmpty (s : session) (r : row) :
  In r (filteredData P s) -> r <> [].
Proof.
  unfold filteredData. rewrite filter_In. intros [_ H] ->. discriminate.
Qed.

Lemma joinCells_no_newline (r : list cell) :
  plainRow P r -> occurs newline (joinCells P r) = false.
Proof.
  intros H. unfold joinCells. apply JSFacts.occurs_join; [reflexivity|].
  apply Forall_map. eapply Forall_impl; [|exact H]. now intros c [_ Hn].
Qed.

Lemma split_joinCells (r : list cell) :
  r <> [] -> plainRow P r -> JS.split comma (joinCells P r) = map (cellString P) r.
Proof.
  intros Hne H. unfold joinCells. apply JSFacts.split_join.
  - destruct r; [congruence | discriminate].
  - apply Forall_map. eapply Forall_impl; [|exact H]. now intros c [Hc _].
Qed.

Lemma filteredData_plain (s : session) :
  Forall (plainRow P) (data s) -> Forall (plainRow P) (filteredData P s).
Proof.
  intros H. apply Forall_forall. intros r Hr.
  apply filter_In in Hr as [Hr _]. revert r Hr. now apply Forall_forall.
Qed.

(** C6 (as amended).  In a session with at least one column, where no
    column name and no cell string holds a comma or a newline, the export
    produces a text whose lines are the joined column names followed by the
    joined cells of each projected row, and reading the text back gives the
    column names and the cell strings of the projection. *)
Theorem export_roundtrip (s : session) (cols : list cell) :
  columns s = Some cols ->
  cols <> [] ->
  plainRow P cols ->
  Forall (plainRow P) (data s) ->
  exists text,
    fst (exportToCSV P s) = Some text /\
    JS.split newline text = joinCells P cols :: map (joinCells P) (filteredData P s) /\
    reparse text = map (cellString P) cols :: map (map (cellString P)) (filteredData P s).
Proof.
  intros Hcols Hne Hplain Hdata.
  exists (JS.join (String newline "")
                  (joinCells P cols :: map (joinCells P) (filteredData P s))).
  assert (Hlines :
            JS.split newline
                     (JS.join (String newline "")
                              (joinCells P cols :: map (joinCells P) (filteredData P s))) =
            joinCells P cols :: map (joinCells P) (filteredData P s)).
  { apply JSFacts.split_join; [discriminate|].
    constructor; [now apply joinCells_no_newline|].
    apply Forall_map. eapply Forall_impl; [|apply filteredData_plain, Hdata].
    intros r. apply joinCells_no_newline. }
  split; [|split].
  - unfold exportToCSV, csvContent. now rewrite Hcols.
  - exact Hlines.
  - unfold reparse. rewrite Hlines. simpl.
    rewrite split_joinCells by assumption. f_equal.
    rewrite map_map. apply map_ext_in. intros r Hr.
    apply split_joinCells; [now apply filteredData_nonEmpty in Hr|].
    pose proof (filteredData_plain s Hdata) as Hf.
    rewrite Forall_forall in Hf. now apply Hf.
Qed.

(** C7 (as amended).  After a load of a grid whose body rows all have at
    least one cell, with the filter query empty, the projection is the body
    of the grid, unchanged and in the order of the file. *)
Theorem projection_after_load
        (s : session) (content : string) (grid : list row) :
  parse P content = Some grid ->
  searchQuery s = "" ->
  Forall (fun r => r <> []) (tl grid) ->
  filteredData P (fst (processFile P s content)) = tl grid.
Proof.
  intros Hp Hq Hrows. unfold processFile. rewrite Hp. simpl.
  unfold filteredData. simpl. rewrite Hq.
  apply filter_all. eapply Forall_impl; [|exact Hrows].
  intros r Hr. rewrite existsb_empty_query. destruct r; [congruence | reflexivity].
Qed.

(** C8, on the code.  A load of a grid with no rows raises nothing and
    leaves no rows, but it stores [undefined] in [columns], not the empty
    list, and the table can no longer be rendered. *)
Theorem processFile_empty_grid (s : session) (content : string) :
  parse P content = Some [] ->
  snd (processFile P s content) = [] /\
  data (fst (processFile P s content)) = [] /\
  columns (fst (processFile P s content)) = None /\
  renderTable P (fst (processFile P s content)) = None.
Proof.
  intros H. unfold processFile. rewrite H. simpl. repeat split.
Qed.

(** C9 (as amended).  Loads are not single-flight.  Whenever the screen is
    displayed, busy or not, a press on the upload button is accepted at once:
    it sets the busy flag and starts one more call of [pickFile] next to
    those already in flight.  The calls in flight interleave: whichever call
    the platform resumes (picker closed, picker failed, file read, read
    failed) takes its next step whatever the others are doing and leaves
    them where they were; a call that ends clears the busy flag, also while
    others are still in flight, and a call whose file has been read stores
    what [processFile] makes of it. *)
Theorem loads_are_not_single_flight (a : app) :
  mounted a = true ->
  (exists a',
      step P a PressUpload = Some a' /\
      view a' = setLoading true (view a) /\
      loading (view a') = true /\
      calls a' = calls a ++ [AwaitingPicker] /\
      inFlight a' = S (inFlight a)) /\
  (forall i canceled,
      nth_error (calls a) i = Some AwaitingPicker ->
      exists a',
        step P a (PickerResolved i canceled) = Some a' /\
        (forall j, j <> i -> nth_error (calls a') j = nth_error (calls a) j) /\
        if canceled
        then view a' = setLoading false (view a) /\
             loading (view a') = false /\
             nth_error (calls a') i = Some Finished /\
             S (inFlight a') = inFlight a
        else view a' = view a /\
             nth_error (calls a') i = Some AwaitingRead /\
             inFlight a' = inFlight a) /\
  (forall i,
      nth_error (calls a) i = Some AwaitingPicker ->
      exists a',
        step P a (PickerRejected i) = Some a' /\
        (forall j, j <> i -> nth_error (calls a') j = nth_error (calls a) j) /\
        view a' = setLoading false (view a) /\
        loading (view a') = false /\
        nth_error (calls a') i = Some Finished /\
        S (inFlight a') = inFlight a) /\
  (forall i content,
      nth_error (calls a) i = Some AwaitingRead ->
      exists a',
        step P a (ReadResolved i content) = Some a' /\
        (forall j, j <> i -> nth_error (calls a') j = nth_error (calls a) j) /\
        view a' = setLoading false (fst (processFile P (view a) content)) /\
        loading (view a') = false /\
        nth_error (calls a') i = Some Finished /\
        S (inFlight a') = inFlight a) /\
  (forall i,
      nth_error (calls a) i = Some AwaitingRead ->
      exists a',
        step P a (ReadRejected i) = Some a' /\
        (forall j, j <> i -> nth_error (calls a') j = nth_error (calls a) j) /\
        view a' = setLoading false (view a) /\
        loading (view a') = false /\
        nth_error (calls a') i = Some Finished /\
        S (inFlight a') = inFlight a).
Proof.
  intros Hm. split; [|split; [|split; [|split]]].
  - eexists. simpl. rewrite Hm. split; [reflexivity|].
    unfold update. rewrite Hm. simpl. repeat split.
    unfold inFlight. simpl. rewrite filter_app, length_app. simpl. lia.
  - intros i canceled Hi. simpl. rewrite Hi. destruct canceled.
    + eexists. split; [reflexivity|].
      destruct (finish_spec a i AwaitingPicker (view a) [] Hm Hi eq_refl)
        as (H1 & H2 & H3 & H4 & H5).
      split; [exact H4|]. repeat split; assumption.
    + eexists. split; [reflexivity|].
      unfold update. rewrite Hm. simpl.
      split; [intros j Hj; now apply nth_error_setStage_ne|].
      split; [reflexivity|].
      split; [exact (nth_error_setStage_eq _ _ _ _ Hi)|].
      pose proof (inFlight_setStage _ _ _ AwaitingRead Hi) as H.
      unfold inFlight. simpl. simpl in H. lia.
  - intros i Hi. simpl. rewrite Hi. eexists. split; [reflexivity|].
    destruct (finish_spec a i AwaitingPicker (view a) [ErrorPickingFile] Hm Hi eq_refl)
      as (H1 & H2 & H3 & H4 & H5).
    split; [exact H4|]. repeat split; assumption.
  - intros i content Hi. simpl. rewrite Hi.
    destruct (processFile P (view a) content) as [v logs] eqn:Hp.
    eexists. split; [reflexivity|].
    destruct (finish_spec a i AwaitingRead v logs Hm Hi eq_refl)
      as (H1 & H2 & H3 & H4 & H5).
    split; [exact H4|]. repeat split; assumption.
  - intros i Hi. simpl. rewrite Hi. eexists. split; [reflexivity|].
    destruct (finish_spec a i AwaitingRead (view a) [ErrorPickingFile] Hm Hi eq_refl)
      as (H1 & H2 & H3 & H4 & H5).
    split; [exact H4|]. repeat split; assumption.
Qed.

(** C10.  Whatever the query, a row with no cell is not in the projection;
    the projection and the exported text are those of the dataset with its
    empty rows removed. *)
Theorem empty_rows_never_projected (s : session) :
  ~ In [] (filteredData P s) /\
  filteredData P s = filteredData P (setData (filter nonEmpty (data s)) s) /\
  csvContent P s = csvContent P (setData (filter nonEmpty (data s)) s).
Proof.
  assert (H : filteredData P s =
              filteredData P (setData (filter nonEmpty (data s)) s)).
  { unfold filteredData. simpl. symmetry.
    apply filter_filter_implied. intros r. apply existsb_nonEmpty. }
  split; [|split].
  - intros Hin. now apply filteredData_nonEmpty in Hin.
  - exact H.
  - unfold csvContent. simpl. now rewrite <- H.
Qed.

End Properties.

(** ** The properties at concrete inputs *)

Lemma processFile_keeps_filter_and_sort_witness :
  parse samplePlatform "people" = Some people /\
  (searchQuery (fst (processFile samplePlatform busySession "people")) = "ann" /\
   sortConfig (fst (processFile samplePlatform busySession "people")) =
   mkSortConfig (Some (CStr "Age")) desc /\
   columns (fst (processFile samplePlatform busySession "people")) =
   hd_error people /\
   data (fst (processFile samplePlatform busySession "people")) = tl people).
Proof.
  split; [reflexivity|].
  apply (processFile_keeps_filter_and_sort samplePlatform busySession "people" people).
  reflexivity.
Defined.

(** C1 as stated fails: a load in a session with the query "ann" and a
    descending sort on "Age" leaves both in place. *)
Lemma load_resets_filter_and_sort_counterexample :
  parse samplePlatform "people" = Some people /\
  searchQuery (fst (processFile samplePlatform busySession "people")) <> "" /\
  sortConfig (fst (processFile samplePlatform busySession "people")) <> noActiveSort.
Proof. repeat split; discriminate. Qed.

Lemma processFile_rejected_keeps_dataset_witness :
  parse samplePlatform "%PDF-1.7" = None /\
  (snd (processFile samplePlatform busySession "%PDF-1.7") = [ErrorProcessingFile] /\
   columns (fst (processFile samplePlatform busySession "%PDF-1.7")) =
   columns busySession /\
   data (fst (processFile samplePlatform busySession "%PDF-1.7")) = data busySession).
Proof.
  split; [reflexivity|].
  apply (processFile_rejected_keeps_dataset samplePlatform busySession "%PDF-1.7").
  reflexivity.
Defined.

(** A first load that is rejected leaves the empty dataset. *)
Example first_load_rejected :
  processFile samplePlatform initial "%PDF-1.7" = (initial, [ErrorProcessingFile]) /\
  data initial = [] /\ columns initial = Some [].
Proof. repeat split. Qed.



(** The mixed column of another run: the comparator reports 9, "5x", 10 as
    one descending run and the engine returns it reversed. *)
Example mixed_column_reversed :
  data (handleSort samplePlatform
                   (mkSession [ [CNum 9]; [CStr "5x"]; [CNum 10] ]
                              (Some [CStr "Code"]) "" noActiveSort false)
                   (CStr "Code")) =
  [ [CNum 10]; [CStr "5x"]; [CNum 9] ].
Proof. reflexivity. Qed.

(** C5 as stated fails outside ASCII text: the cell ends with the query
    itself, a capital sigma, but at the end of a word the sigma has another
    lower-case form than on its own, and the row is not shown. *)
Lemma filter_case_counterexample :
  In [CStr "ΟΔΟΣ"] (data greekSession) /\
  cellString samplePlatform (CStr "ΟΔΟΣ") =
  ("ΟΔΟ" ++ searchQuery greekSession ++ "")%string /\
  containsIgnoringCase (cellString samplePlatform (CStr "ΟΔΟΣ"))
                       (searchQuery greekSession) /\
  filteredData samplePlatform greekSession = [] /\
  ~ In [CStr "ΟΔΟΣ"] (filteredData samplePlatform greekSession).
Proof.
  split; [now left|]. split; [reflexivity|]. split.
  - exists "ΟΔΟ", "Σ", "". split; reflexivity.
  - split; [reflexivity|]. intros H. exact H.
Qed.

Lemma export_roundtrip_witness :
  exists text,
    fst (exportToCSV samplePlatform (fst (processFile samplePlatform initial "people"))) = Some text /\
    JS.split newline text =
    joinCells samplePlatform [CStr "Name"; CStr "Age"] ::
    map (joinCells samplePlatform) (filteredData samplePlatform (fst (processFile samplePlatform initial "people"))) /\
    reparse text =
    map (cellString samplePlatform) [CStr "Name"; CStr "Age"] ::
    map (map (cellString samplePlatform))
        (filteredData samplePlatform (fst (processFile samplePlatform initial "people"))).
Proof.
  apply (export_roundtrip samplePlatform (fst (processFile samplePlatform initial "people"))
                          [CStr "Name"; CStr "Age"]).
  - reflexivity.
  - discriminate.
  - repeat constructor.
  - repeat constructor.
Defined.

(** C6 as stated fails when there is no column: the header line is empty
    and reads back as one empty name. *)
Lemma export_roundtrip_counterexample :
  columns (fst (processFile samplePlatform initial "headless")) = Some [] /\
  plainRow samplePlatform [] /\
  Forall (plainRow samplePlatform) (data (fst (processFile samplePlatform initial "headless"))) /\
  fst (exportToCSV samplePlatform (fst (processFile samplePlatform initial "headless"))) =
  Some (String newline "pen") /\
  reparse (String newline "pen") = [ [""]; ["pen"] ] /\
  reparse (String newline "pen") <>
  map (cellString samplePlatform) [] ::
  map (map (cellString samplePlatform))
      (filteredData samplePlatform (fst (processFile samplePlatform initial "headless"))).
Proof.
  split; [reflexivity|]. split; [constructor|]. split; [repeat constructor|].
  split; [reflexivity|]. split; [reflexivity|]. discriminate.
Qed.

Lemma projection_after_load_witness :
  filteredData samplePlatform (fst (processFile samplePlatform initial "people")) = tl people.
Proof.
  apply (projection_after_load samplePlatform initial "people" people).
  - reflexivity.
  - reflexivity.
  - repeat constructor; discriminate.
Defined.

(** C7 as stated fails on a sheet with a blank row: the row is part of the
    loaded body and is missing from the projection. *)
Lemma projection_after_load_counterexample :
  parse samplePlatform "gap" = Some [ [CStr "Item"]; []; [CStr "pen"] ] /\
  searchQuery (fst (processFile samplePlatform initial "gap")) = "" /\
  sortConfig (fst (processFile samplePlatform initial "gap")) = noActiveSort /\
  data (fst (processFile samplePlatform initial "gap")) = [ []; [CStr "pen"] ] /\
  filteredData samplePlatform (fst (processFile samplePlatform initial "gap")) = [ [CStr "pen"] ] /\
  filteredData samplePlatform (fst (processFile samplePlatform initial "gap")) <>
  [ []; [CStr "pen"] ].
Proof. repeat split; discriminate. Qed.

Lemma processFile_empty_grid_witness :
  parse samplePlatform "" = Some [] /\
  (snd (processFile samplePlatform busySession "") = [] /\
   data (fst (processFile samplePlatform busySession "")) = [] /\
   columns (fst (processFile samplePlatform busySession "")) = None /\
   renderTable samplePlatform (fst (processFile samplePlatform busySession "")) = None).
Proof.
  split; [reflexivity|].
  apply (processFile_empty_grid samplePlatform busySession ""). reflexivity.
Defined.

(** C9 as stated fails: a press while the first call is reading its file
    starts a second call, and two are in flight. *)
Lemma single_flight_counterexample :
  exists a,
    run samplePlatform start
        [PressUpload; PickerResolved 0 false; PressUpload] = Some a /\
    loading (view a) = true /\
    calls a = [AwaitingRead; AwaitingPicker] /\
    inFlight a = 2%nat /\
    ~ (inFlight a <= 1)%nat.
Proof.
  eexists. split; [reflexivity|]. simpl. repeat split. unfold inFlight. simpl. lia.
Qed.

Lemma loads_are_not_single_flight_witness :
  mounted twoCallsApp = true /\
  exists a',
    step samplePlatform twoCallsApp (ReadResolved 0 "people") = Some a' /\
    (forall j, j <> 0%nat ->
               nth_error (calls a') j = nth_error (calls twoCallsApp) j) /\
    view a' =
    setLoading false (fst (processFile samplePlatform (view twoCallsApp) "people")) /\
    loading (view a') = false /\
    nth_error (calls a') 0 = Some Finished /\
    S (inFlight a') = inFlight twoCallsApp.
Proof.
  split; [reflexivity|].
  destruct (loads_are_not_single_flight samplePlatform twoCallsApp eq_refl)
    as (_ & _ & _ & H & _).
  exact (H 0%nat "people" eq_refl).
Defined.

(** A load of the empty sheet through [pickFile]: once the busy flag is
    off the table is drawn with [columns] undefined, the render throws and
    no button is left to press. *)
Example empty_sheet_unmounts :
  exists a,
    run samplePlatform start
        [PressUpload; PickerResolved 0 false; ReadResolved 0 ""] = Some a /\
    console a = [] /\
    columns (view a) = None /\
    mounted a = false /\
    step samplePlatform a PressUpload = None.
Proof. eexists. repeat split. Qed.

(** Two calls in flight interleave: the file picked second is read first,
    the first call then overwrites it, and the busy flag is already off
    while the first call is still reading. *)
Example loads_interleave :
  exists a b,
    run samplePlatform start
        [PressUpload; PickerResolved 0 false; PressUpload;
         PickerResolved 1 false; ReadResolved 1 "people"] = Some a /\
    loading (view a) = false /\ inFlight a = 1%nat /\
    data (view a) = tl people /\
    step samplePlatform a (ReadResolved 0 "gap") = Some b /\
    data (view b) = [ []; [CStr "pen"] ].
Proof. do 2 eexists. repeat split. Qed.

(** The scenarios of the specification. *)
Example scenario_sort_age :
  let s0 := fst (processFile samplePlatform initial "people") in
  let s1 := handleSort samplePlatform s0 (CStr "Age") in
  let s2 := handleSort samplePlatform s1 (CStr "Age") in
  data s1 = [ [CStr "Ann"; CNum 25]; [CStr "Bob"; CNum 30] ] /\
  sortConfig s1 = mkSortConfig (Some (CStr "Age")) asc /\
  data s2 = [ [CStr "Bob"; CNum 30]; [CStr "Ann"; CNum 25] ] /\
  sortConfig s2 = mkSortConfig (Some (CStr "Age")) desc.
Proof. repeat split. Qed.

Example scenario_filter_ann :
  filteredData samplePlatform (setSearchQuery "ann" (fst (processFile samplePlatform initial "people")))
  = [ [CStr "Ann"; CNum 25] ].
Proof. reflexivity. Qed.

(** ** Further properties of the sort *)

Module SortOrder.

Section Generic.
Context {A : Type}.

Lemma insert_ext_in (cmp cmp' : A -> A -> Z) (x : A) (l : list A) :
  (forall y, In y l -> cmp x y = cmp' x y) ->
  JS.insert cmp x l = JS.insert cmp' x l.
Proof.
  induction l as [|y l IH]; intros H; simpl; [reflexivity|].
  rewrite <- (H y) by now left.
  rewrite IH; [reflexivity|]. intros z Hz. apply H. now right.
Qed.

(** The sort only looks at the comparator on the elements of the array. *)
Lemma sort_ext_in (cmp cmp' : A -> A -> Z) (l : list A) :
  (forall x y, In x l -> In y l -> cmp x y = cmp' x y) ->
  JS.stableSort cmp l = JS.stableSort cmp' l.
Proof.
  induction l as [|x l IH]; intros H; simpl; [reflexivity|].
  rewrite IH by (intros; apply H; now right).
  apply insert_ext_in. intros y Hy. apply H; [now left|]. right.
  eapply Permutation_in; [apply SortFacts.sort_perm | exact Hy].
Qed.

Lemma insert_head (cmp : A -> A -> Z) (x : A) (l : list A) :
  Forall (fun y => (cmp x y <= 0)%Z) l -> JS.insert cmp x l = x :: l.
Proof.
  intros H. destruct l as [|y l]; [reflexivity|]. simpl.
  inversion H as [|? ? Hy _]; subst.
  destruct (Z.gtb_spec (cmp x y) 0); [lia | reflexivity].
Qed.

(** An array that is in order is left as it is. *)
Lemma sort_sorted_id (cmp : A -> A -> Z) (l : list A) :
  StronglySorted (fun x y => (cmp x y <= 0)%Z) l -> JS.stableSort cmp l = l.
Proof.
  induction 1 as [|x l _ IH Hall]; simpl; [reflexivity|].
  rewrite IH. now apply insert_head.
Qed.

Lemma StronglySorted_impl (R R' : A -> A -> Prop) (l : list A) :
  (forall x y, In x l -> In y l -> R x y -> R' x y) ->
  StronglySorted R l -> StronglySorted R' l.
Proof.
  intros H Hs. induction Hs as [|x l Hs IH Hall]; constructor.
  - apply IH. intros a b Ha Hb. apply H; now right.
  - rewrite Forall_forall in *. intros y Hy. apply H; [now left | now right|].
    now apply Hall.
Qed.

Lemma filter_perm (p : A -> bool) (l l' : list A) :
  Permutation l l' -> Permutation (filter p l) (filter p l').
Proof.
  induction 1 as [|x l l' _ IH|x y l|l l' l'' _ IH1 _ IH2]; simpl.
  - constructor.
  - destruct (p x); [now constructor | exact IH].
  - destruct (p x), (p y); try apply Permutation_refl. apply perm_swap.
  - eapply perm_trans; eassumption.
Qed.

Lemma before_distinct_keys {B : Type} (f : A -> B) (x y : A) (l : list A) :
  NoDup (map f l) -> before x y l -> f x <> f y.
Proof.
  intros Hnd Hb Heq.
  apply (SortFacts.before_map f) in Hb. rewrite Heq in Hb.
  exact (SortFacts.before_asym _ _ _ Hnd Hb Hb).
Qed.

Section Consistent.
Variable cmp : A -> A -> Z.
Hypothesis cmp_sym : forall x y, Z.sgn (cmp y x) = (- Z.sgn (cmp x y))%Z.
Hypothesis cmp_trans :
  forall x y z, (cmp x y <= 0)%Z -> (cmp y z <= 0)%Z -> (cmp x z <= 0)%Z.

Lemma filter_insert (p : A -> bool) (x : A) (l : list A) :
  StronglySorted (fun a b => (cmp a b <= 0)%Z) l ->
  filter p (JS.insert cmp x l) =
  if p x then JS.insert cmp x (filter p l) else filter p l.
Proof.
  induction 1 as [|y l Hs IH Hall].
  - simpl. now destruct (p x).
  - cbn [JS.insert]. destruct (cmp x y >? 0)%Z eqn:Hxy.
    + cbn [filter]. rewrite IH.
      destruct (p y), (p x); try reflexivity.
      cbn [JS.insert]. now rewrite Hxy.
    + assert (Hle : (cmp x y <= 0)%Z)
        by (destruct (Z.gtb_spec (cmp x y) 0); [discriminate | lia]).
      change (filter p (x :: y :: l))
        with (if p x then x :: filter p (y :: l) else filter p (y :: l)).
      destruct (p x); [|reflexivity].
      symmetry. apply insert_head.
      assert (Hx : Forall (fun z => (cmp x z <= 0)%Z) (y :: l)).
      { constructor; [exact Hle|]. eapply Forall_impl; [|exact Hall].
        intros z Hz. exact (cmp_trans _ _ _ Hle Hz). }
      rewrite Forall_forall in *. intros z Hz.
      apply Hx. apply filter_In in Hz. exact (proj1 Hz).
Qed.

(** Selecting elements and sorting can be done in either order. *)
Lemma filter_sort (p : A -> bool) (l : list A) :
  filter p (JS.stableSort cmp l) = JS.stableSort cmp (filter p l).
Proof.
  induction l as [|x l IH]; simpl; [reflexivity|].
  rewrite filter_insert by now apply SortFacts.sort_sorted.
  rewrite IH. now destruct (p x).
Qed.

End Consistent.

End Generic.

End SortOrder.

(** ** Further properties of the session *)

Lemma numericCompare_sym (cols : list cell) (k : cell) (dir : sort_direction)
      (a b : row) :
  Z.sgn (numericCompare cols k dir b a) = (- Z.sgn (numericCompare cols k dir a b))%Z.
Proof.
  rewrite <- Z.sgn_opp. f_equal. unfold numericCompare. destruct dir; lia.
Qed.

Lemma numericCompare_trans (cols : list cell) (k : cell) (dir : sort_direction)
      (a b c : row) :
  (numericCompare cols k dir a b <= 0)%Z ->
  (numericCompare cols k dir b c <= 0)%Z ->
  (numericCompare cols k dir a c <= 0)%Z.
Proof. unfold numericCompare. destruct dir; lia. Qed.

Lemma numericCompare_le (cols : list cell) (k : cell) (dir : sort_direction)
      (a b : row) :
  (numericCompare cols k dir a b <= 0)%Z <->
  inDirection dir (keyNumber cols k a) (keyNumber cols k b).
Proof. unfold numericCompare, inDirection. destruct dir; lia. Qed.

Lemma numericCompare_flip (cols : list cell) (k : cell) (dir : sort_direction)
      (a b : row) :
  numericCompare cols k (flip dir) a b = numericCompare cols k dir b a.
Proof. now destruct dir. Qed.

Lemma numericColumn_perm (cols : list cell) (k : cell) (rows rows' : list row) :
  Permutation rows rows' -> numericColumn cols k rows -> numericColumn cols k rows'.
Proof. intros Hp. unfold numericColumn. now apply Permutation_Forall. Qed.

Lemma nextDirection_again (c : SortConfig) (k : cell) :
  nextDirection (mkSortConfig (Some k) (nextDirection c k)) k =
  flip (nextDirection c k).
Proof.
  unfold nextDirection at 1. simpl.
  assert (H : strictEq k k = true) by now apply strictEq_spec.
  rewrite H. now destruct (nextDirection c k).
Qed.

Section FurtherProperties.

Variable P : platform.

Lemma compareFn_numeric (cols : list cell) (k : cell) (dir : sort_direction)
      (a b : row) :
  isNumber (keyCell cols k a) = true ->
  isNumber (keyCell cols k b) = true ->
  compareFn P cols k dir a b = numericCompare cols k dir a b.
Proof.
  unfold compareFn, numericCompare, keyNumber, keyCell.
  destruct (JS.at_ a _) as [[x|u]|]; try discriminate.
  destruct (JS.at_ b _) as [[y|v]|]; try discriminate.
  reflexivity.
Qed.

Lemma sort_numeric (cols : list cell) (k : cell) (dir : sort_direction)
      (rows : list row) :
  numericColumn cols k rows ->
  JS.stableSort (compareFn P cols k dir) rows =
  JS.stableSort (numericCompare cols k dir) rows.
Proof.
  intros H. apply SortOrder.sort_ext_in. intros a b Ha Hb.
  unfold numericColumn in H. rewrite Forall_forall in H.
  apply compareFn_numeric; now apply H.
Qed.

Lemma handleSort_numeric_data (s : session) (k : cell) (cols : list cell) :
  columns s = Some cols ->
  numericColumn cols k (data s) ->
  data (handleSort P s k) =
  JS.stableSort (compareFn P cols k (nextDirection (sortConfig s) k)) (data s).
Proof.
  intros H Hn. apply (handleSort_data P s k cols H).
  now apply numericColumn_consistentOn.
Qed.

Lemma handleSort_frame (s : session) (k : cell) :
  Permutation (data (handleSort P s k)) (data s) /\
  columns (handleSort P s k) = columns s /\
  searchQuery (handleSort P s k) = searchQuery s /\
  loading (handleSort P s k) = loading s.
Proof.
  unfold handleSort. destruct (columns s) as [cols|] eqn:Hc.
  - simpl. repeat split; auto. apply arraySort_permutes.
  - destruct (List.length (data s) <? 2)%nat; simpl; repeat split; auto.
Qed.

(** X1.  A sort only rearranges: the rows after [handleSort] are the rows
    before it, each as often as before, and the columns, the query and the
    busy flag are untouched. *)
Theorem handleSort_rearranges (s : session) (k : cell) :
  Permutation (data (handleSort P s k)) (data s) /\
  columns (handleSort P s k) = columns s /\
  searchQuery (handleSort P s k) = searchQuery s /\
  loading (handleSort P s k) = loading s.
Proof.
  unfold handleSort. destruct (columns s) as [cols|] eqn:Hc.
  - simpl. split; [apply arraySort_permutes | now repeat split].
  - destruct (List.length (data s) <? 2)%nat; simpl;
      (split; [apply Permutation_refl | now repeat split]).
Qed.

(** X2.  A sort does not change which rows the filter shows: the projection
    after [handleSort] is a rearrangement of the projection before it. *)
Theorem handleSort_keeps_projected_rows (s : session) (k : cell) :
  Permutation (filteredData P (handleSort P s k)) (filteredData P s).
Proof.
  destruct (handleSort_frame s k) as (Hp & _ & Hq & _).
  unfold filteredData. rewrite Hq. now apply SortOrder.filter_perm.
Qed.

(** X3.  When every row has a number under the sorted column, the rows
    after [handleSort] are in order of that number: ascending or descending,
    as the new sort state says. *)
Theorem handleSort_numeric_in_order (s : session) (k : cell) (cols : list cell) :
  columns s = Some cols ->
  numericColumn cols k (data s) ->
  StronglySorted
    (fun a b => inDirection (direction (sortConfig (handleSort P s k)))
                            (keyNumber cols k a) (keyNumber cols k b))
    (data (handleSort P s k)).
Proof.
  intros Hc Hn. rewrite handleSort_sortConfig. simpl.
  rewrite (handleSort_numeric_data s k cols Hc Hn), sort_numeric by exact Hn.
  eapply SortOrder.StronglySorted_impl;
    [|apply SortFacts.sort_sorted;
      [intros; apply numericCompare_sym | intros x y z; apply numericCompare_trans]].
  intros a b _ _. apply numericCompare_le.
Qed.

(** X4.  On a numeric column, sorting and filtering commute: the projection
    of the sorted session is what sorting the projected rows gives. *)
Theorem sort_then_filter_is_filter_then_sort
        (s : session) (k : cell) (cols : list cell) :
  columns s = Some cols ->
  numericColumn cols k (data s) ->
  filteredData P (handleSort P s k) =
  data (handleSort P (setData (filteredData P s) s) k).
Proof.
  intros Hc Hn.
  assert (Hnf : numericColumn cols k (filteredData P s)).
  { unfold numericColumn in *. rewrite Forall_forall in *. intros r Hr.
    apply Hn. unfold filteredData in Hr. apply filter_In in Hr. exact (proj1 Hr). }
  rewrite (handleSort_numeric_data (setData (filteredData P s) s) k cols Hc Hnf).
  simpl.
  rewrite sort_numeric by exact Hnf.
  unfold filteredData at 1.
  destruct (handleSort_frame s k) as (_ & _ & -> & _).
  rewrite (handleSort_numeric_data s k cols Hc Hn), sort_numeric by exact Hn.
  apply SortOrder.filter_sort.
  - intros; apply numericCompare_sym.
  - intros x y z; apply numericCompare_trans.
Qed.

(** X5.  On a numeric column whose numbers are all different, a second sort
    on the same column gives the rows of the first sort in reverse. *)
Theorem second_sort_reverses (s : session) (k : cell) (cols : list cell) :
  columns s = Some cols ->
  numericColumn cols k (data s) ->
  NoDup (map (keyNumber cols k) (data s)) ->
  data (handleSort P (handleSort P s k) k) =
  rev (data (handleSort P s k)).
Proof.
  intros Hc Hn Hnd.
  set (d := nextDirection (sortConfig s) k).
  destruct (handleSort_frame s k) as (Hp & Hc1 & _ & _).
  rewrite Hc in Hc1.
  assert (Hn1 : numericColumn cols k (data (handleSort P s k)))
    by (eapply numericColumn_perm; [apply Permutation_sym, Hp | exact Hn]).
  rewrite (handleSort_numeric_data _ k cols Hc1 Hn1),
    handleSort_sortConfig, nextDirection_again.
  fold d.
  rewrite sort_numeric by exact Hn1.
  assert (Hs1 : StronglySorted (fun a b => (numericCompare cols k d a b <= 0)%Z)
                               (data (handleSort P s k))).
  { rewrite (handleSort_numeric_data s k cols Hc Hn), sort_numeric by exact Hn.
    apply SortFacts.sort_sorted;
      [intros; apply numericCompare_sym | intros x y z; apply numericCompare_trans]. }
  set (rows1 := data (handleSort P s k)) in *.
  assert (Hnd1 : NoDup (map (keyNumber cols k) rows1)).
  { eapply Permutation_NoDup; [|exact Hnd].
    apply Permutation_map, Permutation_sym, Hp. }
  apply (SortFacts.sorted_perm_unique
           (fun a b => (numericCompare cols k (flip d) a b < 0)%Z)).
  - intros a b Hab Hba. rewrite !numericCompare_flip in *.
    unfold numericCompare in *. destruct d; lia.
  - apply SortFacts.before_sorted. intros a b Hb.
    assert (Hle : (numericCompare cols k (flip d) a b <= 0)%Z).
    { eapply (SortFacts.sorted_before
                (fun a b => (numericCompare cols k (flip d) a b <= 0)%Z));
        [|exact Hb].
      apply SortFacts.sort_sorted;
        [intros; apply numericCompare_sym | intros x y z; apply numericCompare_trans]. }
    assert (Hne : keyNumber cols k a <> keyNumber cols k b).
    { apply (SortOrder.before_distinct_keys _ _ _
               (JS.stableSort (numericCompare cols k (flip d)) rows1)); [|exact Hb].
      eapply Permutation_NoDup; [|exact Hnd1].
      apply Permutation_map, Permutation_sym, SortFacts.sort_perm. }
    unfold numericCompare in *. destruct d; simpl in *; lia.
  - apply SortFacts.before_sorted. intros a b Hb.
    apply EngineSort.before_rev in Hb.
    pose proof (SortFacts.sorted_before _ _ _ _ Hs1 Hb) as Hle.
    pose proof (SortOrder.before_distinct_keys _ _ _ _ Hnd1 Hb) as Hne.
    rewrite numericCompare_flip.
    unfold numericCompare in *. destruct d; simpl in *; lia.
  - eapply perm_trans; [apply SortFacts.sort_perm | apply Permutation_rev].
Qed.

(** X6.  On a numeric column whose rows are already in the order of the
    direction the sort is about to take, [handleSort] leaves the rows as
    they are. *)
Theorem handleSort_already_in_order (s : session) (k : cell) (cols : list cell) :
  columns s = Some cols ->
  numericColumn cols k (data s) ->
  StronglySorted
    (fun a b => inDirection (nextDirection (sortConfig s) k)
                            (keyNumber cols k a) (keyNumber cols k b))
    (data s) ->
  data (handleSort P s k) = data s.
Proof.
  intros Hc Hn Hs.
  rewrite (handleSort_numeric_data s k cols Hc Hn), sort_numeric by exact Hn.
  apply SortOrder.sort_sorted_id.
  eapply SortOrder.StronglySorted_impl; [|exact Hs].
  intros a b _ _. apply numericCompare_le.
Qed.

Lemma indexOf_first (cols1 cols2 : list cell) (k : cell) :
  ~ In k cols1 ->
  JS.indexOf strictEq (cols1 ++ k :: cols2) k = Z.of_nat (List.length cols1).
Proof.
  induction cols1 as [|y cols1 IH]; intros Hk.
  - simpl. assert (H : strictEq k k = true) by now apply strictEq_spec.
    now rewrite H.
  - cbn [List.app JS.indexOf].
    destruct (strictEq y k) eqn:He.
    + apply strictEq_spec in He. subst. exfalso. apply Hk. now left.
    + rewrite IH by (intros H; apply Hk; now right).
      destruct (Z.ltb_spec (Z.of_nat (List.length cols1)) 0); simpl List.length; lia.
Qed.

Lemma indexOf_missing (cols : list cell) (k : cell) :
  ~ In k cols -> JS.indexOf strictEq cols k = (-1)%Z.
Proof.
  induction cols as [|y cols IH]; intros Hk; [reflexivity|].
  cbn [JS.indexOf]. destruct (strictEq y k) eqn:He.
  - apply strictEq_spec in He. subst. exfalso. apply Hk. now left.
  - rewrite IH by (intros H; apply Hk; now right). reflexivity.
Qed.

(** X7.  The cell a row is sorted by is the one at the position of the
    first column equal to the key, whatever columns of the same name
    follow, and none when the row is too short; for a key that is no
    column, no row has a key cell. *)
Theorem keyCell_first_match (cols1 cols2 : list cell) (k : cell) (r : row) :
  ~ In k cols1 ->
  keyCell (cols1 ++ k :: cols2) k r = nth_error r (List.length cols1) /\
  keyCell cols1 k r = None.
Proof.
  intros Hk. unfold keyCell. split.
  - rewrite indexOf_first by exact Hk. unfold JS.at_.
    destruct (Z.ltb_spec (Z.of_nat (List.length cols1)) 0); [lia|].
    now rewrite Nat2Z.id.
  - now rewrite indexOf_missing by exact Hk.
Qed.

(** X8.  A sort by a key that is no column compares every two rows as
    "undefined" with "undefined"; when the collation finds these equal the
    rows keep their order. *)
Theorem handleSort_unknown_key (s : session) (k : cell) (cols : list cell) :
  columns s = Some cols ->
  ~ In k cols ->
  localeCompare P "undefined" "undefined" = 0%Z ->
  data (handleSort P s k) = data s.
Proof.
  intros Hc Hk H0.
  assert (Hzero : forall a b,
             compareFn P cols k (nextDirection (sortConfig s) k) a b = 0%Z).
  { intros a b. unfold compareFn. rewrite indexOf_missing by exact Hk.
    cbn. now destruct (nextDirection (sortConfig s) k). }
  rewrite (handleSort_data P s k cols Hc).
  - apply SortOrder.sort_sorted_id. apply SortFacts.before_sorted.
    intros a b _. rewrite Hzero. lia.
  - split; intros; rewrite !Hzero; [reflexivity | lia].
Qed.

Lemma string_app_assoc (a b c : string) :
  ((a ++ b) ++ c)%string = (a ++ b ++ c)%string.
Proof. induction a as [|x a IH]; simpl; [reflexivity | now rewrite IH]. Qed.

Lemma occursIn_trans (a b c : string) :
  occursIn a b -> occursIn b c -> occursIn a c.
Proof.
  intros (p1 & t1 & ->) (p2 & t2 & ->).
  exists (p2 ++ p1)%string, (t1 ++ t2)%string.
  now rewrite !string_app_assoc.
Qed.

Lemma cellMatches_narrow (q q' : string) (c : cell) :
  occursIn (toLowerCase P q) (toLowerCase P q') ->
  cellMatches P q' c = true -> cellMatches P q c = true.
Proof.
  intros H. rewrite !cellMatches_spec. now apply occursIn_trans.
Qed.

(** X9.  Refining the query only removes rows: when the lower-case form of
    the new query contains the lower-case form of the old one, the
    projection for the new query is what the new query selects among the
    rows shown for the old one. *)
Theorem refined_query_filters_projection (s : session) (q q' : string) :
  occursIn (toLowerCase P q) (toLowerCase P q') ->
  filteredData P (setSearchQuery q' s) =
  filteredData P (setSearchQuery q' (setData (filteredData P (setSearchQuery q s)) s)).
Proof.
  intros H. unfold filteredData. simpl. symmetry.
  apply filter_filter_implied. intros r.
  rewrite !existsb_exists. intros (c & Hc & Hm).
  exists c. split; [exact Hc|]. exact (cellMatches_narrow q q' c H Hm).
Qed.

(** X10.  With the empty query the projection is the dataset without its
    rows of no cell, in the order of the dataset. *)
Theorem empty_query_shows_rows_with_cells (s : session) :
  searchQuery s = "" ->
  filteredData P s = filter nonEmpty (data s).
Proof.
  intros H. unfold filteredData. rewrite H.
  apply filter_ext. intros r. apply existsb_empty_query.
Qed.

Lemma count_app (c : ascii) (a b : string) :
  count c (a ++ b) = (count c a + count c b)%nat.
Proof. induction a as [|x a IH]; simpl; [reflexivity | rewrite IH; lia]. Qed.

Lemma split_length (c : ascii) (s : string) :
  List.length (JS.split c s) = S (count c s).
Proof.
  induction s as [|a s IH]; simpl; [reflexivity|].
  destruct (Ascii.eqb a c); simpl; [now rewrite IH|].
  destruct (JS.split c s); simpl in *; [discriminate | exact IH].
Qed.

Lemma count_join (c : ascii) (parts : list string) :
  parts <> [] ->
  count c (JS.join (String c "") parts) =
  (List.length parts - 1 + list_sum (map (count c) parts))%nat.
Proof.
  induction parts as [|p rest IH]; [congruence|]. intros _.
  destruct rest as [|p' rest]; [simpl; lia|].
  rewrite JSFacts.join_cons by discriminate.
  rewrite count_app. cbn [append count]. rewrite Ascii.eqb_refl.
  rewrite IH by discriminate. unfold list_sum. cbn [List.length map fold_right]. lia.
Qed.

(** X11.  Commas inside cells are not escaped by the export: the line of a
    row with at least one cell reads back as one field per cell plus one
    field for every comma in the string forms of its cells. *)
Theorem exported_line_field_count (r : list cell) :
  r <> [] ->
  List.length (JS.split comma (joinCells P r)) = (List.length r + commasIn P r)%nat.
Proof.
  intros Hr. rewrite split_length. unfold joinCells.
  rewrite count_join by (destruct r; [congruence | discriminate]).
  rewrite length_map, map_map. unfold commasIn, cellString.
  destruct r; [congruence|]. simpl List.length. lia.
Qed.

End FurtherProperties.

(** ** Properties of the event loop *)

Lemma update_wellFormed (a : app) (v : session) (logs : list log_entry)
      (cs : list stage) :
  wellFormed a ->
  (loading v = true -> (1 <= List.length (filter isInFlight cs))%nat) ->
  (columns v = None -> data v = []) ->
  wellFormed (update a v logs cs).
Proof.
  intros (H1 & H2 & H3) Hv Hc. unfold update, wellFormed, inFlight.
  destruct (mounted a) eqn:Hm; simpl.
  - split; [exact Hv|]. split; [|exact Hc].
    unfold rendered. intros H. now apply orb_false_iff in H.
  - specialize (H2 eq_refl). split; [congruence|]. split; [auto | exact H3].
Qed.

Section EventLoop.

Variable P : platform.

Lemma processFile_columns_rows (s : session) (content : string) :
  (columns s = None -> data s = []) ->
  columns (fst (processFile P s content)) = None ->
  data (fst (processFile P s content)) = [].
Proof.
  unfold processFile. destruct (parse P content) as [[|h grid]|]; simpl; auto.
  discriminate.
Qed.

Lemma step_wellFormed (a a' : app) (e : event) :
  wellFormed a -> step P a e = Some a' -> wellFormed a'.
Proof.
  intros Hwf. pose proof Hwf as (H1 & H2 & H3).
  destruct e as [|i canceled|i|i content|i|q|column|]; simpl.
  - destruct (mounted a); [|discriminate]. intros [= <-].
    apply update_wellFormed; auto.
    intros _. rewrite filter_app, length_app. simpl. lia.
  - destruct (nth_error (calls a) i) as [[| |]|] eqn:Hi; try discriminate.
    destruct canceled; intros [= <-].
    + apply update_wellFormed; auto. discriminate.
    + apply update_wellFormed; auto. intros Hl.
      pose proof (inFlight_setStage _ _ _ AwaitingRead Hi) as Hn.
      specialize (H1 Hl). unfold inFlight in H1. simpl in Hn. lia.
  - destruct (nth_error (calls a) i) as [[| |]|]; try discriminate.
    intros [= <-]. apply update_wellFormed; auto. discriminate.
  - destruct (nth_error (calls a) i) as [[| |]|]; try discriminate.
    pose proof (processFile_columns_rows (view a) content H3) as Hp.
    destruct (processFile P (view a) content) as [v logs].
    intros [= <-]. apply update_wellFormed; auto. discriminate.
  - destruct (nth_error (calls a) i) as [[| |]|]; try discriminate.
    intros [= <-]. apply update_wellFormed; auto. discriminate.
  - destruct (mounted a && hasRows (view a)); [|discriminate].
    intros [= <-]. apply update_wellFormed; auto.
  - destruct (mounted a && showsHeader (view a) column); [|discriminate].
    intros [= <-].
    destruct (handleSort_frame P (view a) column)
      as (Hp & Hc & _ & Hl).
    apply update_wellFormed; auto.
    + rewrite Hl. exact H1.
    + rewrite Hc. intros Hn. rewrite (H3 Hn) in Hp.
      apply Permutation_sym in Hp. now apply Permutation_nil in Hp.
  - destruct (mounted a && hasRows (view a)); [|discriminate].
    intros [= <-]. apply update_wellFormed; auto.
Qed.

Lemma run_wellFormed (es : list event) (a a' : app) :
  wellFormed a -> run P a es = Some a' -> wellFormed a'.
Proof.
  revert a; induction es as [|e es IH]; intros a Hwf; simpl.
  - now intros [= <-].
  - destruct (step P a e) as [a1|] eqn:He; [|discriminate].
    apply IH. exact (step_wellFormed a a1 e Hwf He).
Qed.

Lemma start_wellFormed : wellFormed start.
Proof. repeat split; discriminate. Qed.

(** X12.  In every state the screen reaches, the busy flag is set only
    while some call of [pickFile] is in flight: once every call has ended
    the spinner is gone. *)
Theorem busy_only_while_in_flight (es : list event) (a : app) :
  run P start es = Some a ->
  loading (view a) = true ->
  (1 <= inFlight a)%nat.
Proof.
  intros Hrun. exact (proj1 (run_wellFormed es start a start_wellFormed Hrun)).
Qed.

(** X13.  In every state the screen reaches in which the export button is
    enabled (there are rows), [columns] is defined: the export builds its
    text and logs nothing. *)
Theorem export_enabled_builds_text (es : list event) (a : app) :
  run P start es = Some a ->
  hasRows (view a) = true ->
  exists text, exportToCSV P (view a) = (Some text, []).
Proof.
  intros Hrun Hrows.
  destruct (run_wellFormed es start a start_wellFormed Hrun) as (_ & _ & H3).
  unfold exportToCSV, csvContent.
  destruct (columns (view a)) as [cols|]; [eexists; reflexivity|].
  unfold hasRows in Hrows. rewrite (H3 eq_refl) in Hrows. discriminate.
Qed.

(** X14.  When the file read by a call of [pickFile] decodes to the grid
    with no rows, the screen is gone after the call, whatever else is in
    flight: the busy flag is cleared and the table is drawn with [columns]
    undefined. *)
Theorem empty_grid_unmounts (a a' : app) (i : nat) (content : string) :
  parse P content = Some [] ->
  step P a (ReadResolved i content) = Some a' ->
  mounted a' = false.
Proof.
  intros Hp. simpl. unfold processFile. rewrite Hp.
  destruct (nth_error (calls a) i) as [[| |]|]; try discriminate.
  intros [= <-]. unfold finish, update. now destruct (mounted a).
Qed.

(** X15.  However a call of [pickFile] ends without a grid (the picker is
    cancelled, the picker or the read fails, the decoder rejects the
    content), the columns, the rows, the query and the sort state are what
    they were and the busy flag is cleared. *)
Theorem load_without_grid_keeps_session (a a' : app) (e : event) :
  mounted a = true ->
  endsWithoutGrid P e = true ->
  step P a e = Some a' ->
  view a' = setLoading false (view a).
Proof.
  intros Hm He. destruct e as [|i canceled|i|i content|i|q|column|];
    simpl in He; try discriminate; simpl.
  - subst canceled.
    destruct (nth_error (calls a) i) as [[| |]|]; try discriminate.
    intros [= <-]. unfold finish, update. now rewrite Hm.
  - destruct (nth_error (calls a) i) as [[| |]|]; try discriminate.
    intros [= <-]. unfold finish, update. now rewrite Hm.
  - unfold processFile. destruct (parse P content); [discriminate|].
    destruct (nth_error (calls a) i) as [[| |]|]; try discriminate.
    intros [= <-]. unfold finish, update. now rewrite Hm.
  - destruct (nth_error (calls a) i) as [[| |]|]; try discriminate.
    intros [= <-]. unfold finish, update. now rewrite Hm.
Qed.

(** X16.  The busy flag does not count the calls: when one of several
    calls in flight ends by a cancelled picker, the flag is cleared although
    another call is still in flight. *)
Theorem cancel_clears_busy_flag_early (a : app) (i : nat) :
  mounted a = true ->
  nth_error (calls a) i = Some AwaitingPicker ->
  (2 <= inFlight a)%nat ->
  exists a',
    step P a (PickerResolved i true) = Some a' /\
    loading (view a') = false /\
    (1 <= inFlight a')%nat.
Proof.
  intros Hm Hi Hn. simpl. rewrite Hi. eexists. split; [reflexivity|].
  unfold finish, update. rewrite Hm. simpl. split; [reflexivity|].
  pose proof (inFlight_setStage _ _ _ Finished Hi) as H.
  unfold inFlight in *. simpl in *. lia.
Qed.

End EventLoop.

(** ** Text columns and the origin of the rows *)

Lemma codeUnitCompare_sym (u v : string) :
  Z.sgn (codeUnitCompare v u) = (- Z.sgn (codeUnitCompare u v))%Z.
Proof.
  unfold codeUnitCompare. rewrite (String.compare_antisym u v).
  now destruct (String.compare v u).
Qed.

Lemma string_compare_le_trans (u v w : string) :
  String.compare u v <> Gt -> String.compare v w <> Gt -> String.compare u w <> Gt.
Proof.
  revert v w; induction u as [|a u IH]; intros [|b v] [|c w]; simpl;
    try congruence.
  unfold Ascii.compare.
  destruct (N.compare_spec (N_of_ascii a) (N_of_ascii b)) as [Hab|Hab|Hab];
    destruct (N.compare_spec (N_of_ascii b) (N_of_ascii c)) as [Hbc|Hbc|Hbc];
    destruct (N.compare_spec (N_of_ascii a) (N_of_ascii c)) as [Hac|Hac|Hac];
    try congruence; try lia.
  apply IH.
Qed.

Lemma codeUnitCompare_trans (u v w : string) :
  (codeUnitCompare u v <= 0)%Z -> (codeUnitCompare v w <= 0)%Z ->
  (codeUnitCompare u w <= 0)%Z.
Proof.
  unfold codeUnitCompare. intros Huv Hvw.
  pose proof (string_compare_le_trans u v w) as H.
  destruct (String.compare u v), (String.compare v w), (String.compare u w);
    try lia; exfalso; apply H; congruence.
Qed.

Section TextAndOrigin.

Variable P : platform.

Lemma compareFn_text (cols : list cell) (k : cell) (dir : sort_direction)
      (a b : row) :
  isNumber (keyCell cols k a) = false ->
  compareFn P cols k dir a b = textCompare P cols k dir a b.
Proof.
  unfold compareFn, textCompare, keyString, keyCell.
  destruct (JS.at_ a _) as [[x|u]|]; try discriminate;
    destruct (JS.at_ b _) as [[y|v]|]; reflexivity.
Qed.

(** X17.  When no row has a number under the sorted column and the
    collation is a consistent ordering, the rows after [handleSort] are in
    collation order of the string forms of their key cells, in the direction
    the new sort state says. *)
Theorem handleSort_text_in_order (s : session) (k : cell) (cols : list cell) :
  (forall u v, Z.sgn (localeCompare P v u) = (- Z.sgn (localeCompare P u v))%Z) ->
  (forall u v w, (localeCompare P u v <= 0)%Z -> (localeCompare P v w <= 0)%Z ->
                 (localeCompare P u w <= 0)%Z) ->
  columns s = Some cols ->
  textColumn cols k (data s) ->
  StronglySorted
    (fun a b =>
       match direction (sortConfig (handleSort P s k)) with
       | asc => (localeCompare P (keyString P cols k a) (keyString P cols k b) <= 0)%Z
       | desc => (localeCompare P (keyString P cols k b) (keyString P cols k a) <= 0)%Z
       end)
    (data (handleSort P s k)).
Proof.
  intros Hsym Htrans Hc Ht. rewrite handleSort_sortConfig. simpl.
  assert (Htext : forall a b, In a (data s) ->
             compareFn P cols k (nextDirection (sortConfig s) k) a b =
             textCompare P cols k (nextDirection (sortConfig s) k) a b).
  { intros a b Ha. apply compareFn_text.
    unfold textColumn in Ht. rewrite Forall_forall in Ht. now apply Ht. }
  rewrite (handleSort_data P s k cols Hc).
  2:{ split.
      - intros a b Ha Hb. rewrite !Htext by assumption. unfold textCompare.
        destruct (nextDirection (sortConfig s) k); apply Hsym.
      - intros a b c Ha Hb Hc'. rewrite !Htext by assumption. unfold textCompare.
        destruct (nextDirection (sortConfig s) k); intros H1 H2;
          eapply Htrans; eassumption. }
  rewrite (SortOrder.sort_ext_in _
             (textCompare P cols k (nextDirection (sortConfig s) k))).
  - eapply SortOrder.StronglySorted_impl; [|apply SortFacts.sort_sorted].
    + intros a b _ _ H. unfold textCompare in H.
      destruct (nextDirection (sortConfig s) k); exact H.
    + intros a b. unfold textCompare.
      destruct (nextDirection (sortConfig s) k); apply Hsym.
    + intros a b c. unfold textCompare.
      destruct (nextDirection (sortConfig s) k); intros H1 H2;
        eapply Htrans; eassumption.
  - intros a b Ha _. now apply Htext.
Qed.

Lemma processFile_fromOneFile (s : session) (content : string) :
  fromOneFile P s -> fromOneFile P (fst (processFile P s content)).
Proof.
  intros H. unfold processFile.
  destruct (parse P content) as [grid|] eqn:Hp; simpl; [|exact H].
  right. exists content, grid. repeat split; auto.
Qed.

Lemma handleSort_fromOneFile (s : session) (k : cell) :
  fromOneFile P s -> fromOneFile P (handleSort P s k).
Proof.
  destruct (handleSort_frame P s k) as (Hp & Hc & _ & _).
  intros [[H1 H2] | (content & grid & Hg & Hcols & Hperm)].
  - left. rewrite Hc. split; [exact H1|]. rewrite H2 in Hp.
    apply Permutation_sym in Hp. now apply Permutation_nil in Hp.
  - right. exists content, grid. rewrite Hc. repeat split; auto.
    eapply perm_trans; eassumption.
Qed.

Lemma fromOneFile_ext (s s' : session) :
  columns s' = columns s -> data s' = data s ->
  fromOneFile P s -> fromOneFile P s'.
Proof. unfold fromOneFile. intros -> ->. auto. Qed.

Lemma step_fromOneFile (a a' : app) (e : event) :
  fromOneFile P (view a) ->
  step P a e = Some a' ->
  fromOneFile P (view a').
Proof.
  intros H.
  assert (Hup : forall v logs cs,
             fromOneFile P v -> fromOneFile P (view (update a v logs cs))).
  { intros v logs cs Hv. unfold update. now destruct (mounted a). }
  destruct e as [|i canceled|i|i content|i|q|column|]; simpl.
  - destruct (mounted a); [|discriminate]. intros [= <-].
    apply Hup. now apply (fromOneFile_ext (view a)).
  - destruct (nth_error (calls a) i) as [[| |]|]; try discriminate.
    destruct canceled; intros [= <-]; apply Hup; [|exact H].
    now apply (fromOneFile_ext (view a)).
  - destruct (nth_error (calls a) i) as [[| |]|]; try discriminate.
    intros [= <-]. apply Hup. now apply (fromOneFile_ext (view a)).
  - destruct (nth_error (calls a) i) as [[| |]|]; try discriminate.
    pose proof (processFile_fromOneFile (view a) content H) as Hp.
    destruct (processFile P (view a) content) as [v logs].
    intros [= <-]. apply Hup. now apply (fromOneFile_ext v).
  - destruct (nth_error (calls a) i) as [[| |]|]; try discriminate.
    intros [= <-]. apply Hup. now apply (fromOneFile_ext (view a)).
  - destruct (mounted a && hasRows (view a)); [|discriminate].
    intros [= <-]. apply Hup. now apply (fromOneFile_ext (view a)).
  - destruct (mounted a && showsHeader (view a) column); [|discriminate].
    intros [= <-]. apply Hup. now apply handleSort_fromOneFile.
  - destruct (mounted a && hasRows (view a)); [|discriminate].
    intros [= <-]. now apply Hup.
Qed.

(** X18.  Whatever loads, sorts, searches and exports happen and however
    the calls of [pickFile] interleave, the dataset on the screen is never a
    mixture: either it is still the initial empty one, or its columns are
    the first row and its rows a rearrangement of the other rows of one and
    the same decoded file. *)
Theorem dataset_is_from_one_file (es : list event) (a : app) :
  run P start es = Some a ->
  fromOneFile P (view a).
Proof.
  assert (Hgen : forall a0, fromOneFile P (view a0) ->
                            run P a0 es = Some a ->
                            fromOneFile P (view a)).
  { induction es as [|e es IH]; intros a0 H0; simpl.
    - now intros [= <-].
    - destruct (step P a0 e) as [a1|] eqn:He; [|discriminate].
      apply IH. exact (step_fromOneFile a0 a1 e H0 He). }
  apply Hgen. left. split; reflexivity.
Qed.

End TextAndOrigin.

(** ** The further properties at concrete inputs *)

Lemma handleSort_numeric_in_order_witness :
  StronglySorted
    (fun a b =>
       inDirection
         (direction (sortConfig (handleSort samplePlatform tiedSession (CStr "Age"))))
         (keyNumber [CStr "Name"; CStr "Age"] (CStr "Age") a)
         (keyNumber [CStr "Name"; CStr "Age"] (CStr "Age") b))
    (data (handleSort samplePlatform tiedSession (CStr "Age"))).
Proof.
  apply (handleSort_numeric_in_order samplePlatform tiedSession (CStr "Age")
                                     [CStr "Name"; CStr "Age"]).
  - reflexivity.
  - repeat constructor.
Defined.

Lemma sort_then_filter_is_filter_then_sort_witness :
  filteredData samplePlatform (handleSort samplePlatform (setSearchQuery "b" tiedSession) (CStr "Age")) =
  data (handleSort samplePlatform
                   (setData (filteredData samplePlatform (setSearchQuery "b" tiedSession))
                            (setSearchQuery "b" tiedSession))
                   (CStr "Age")).
Proof.
  apply (sort_then_filter_is_filter_then_sort
           samplePlatform (setSearchQuery "b" tiedSession) (CStr "Age")
           [CStr "Name"; CStr "Age"]).
  - reflexivity.
  - repeat constructor.
Defined.

Lemma second_sort_reverses_witness :
  data (handleSort samplePlatform
                   (handleSort samplePlatform peopleSession (CStr "Age"))
                   (CStr "Age")) =
  rev (data (handleSort samplePlatform peopleSession (CStr "Age"))).
Proof.
  apply (second_sort_reverses samplePlatform peopleSession (CStr "Age")
                              [CStr "Name"; CStr "Age"]).
  - reflexivity.
  - repeat constructor.
  - repeat constructor; simpl; intuition discriminate.
Defined.

Lemma handleSort_already_in_order_witness :
  data (handleSort samplePlatform sortedSession (CStr "Age")) = data sortedSession.
Proof.
  apply (handleSort_already_in_order samplePlatform sortedSession (CStr "Age")
                                     [CStr "Name"; CStr "Age"]).
  - reflexivity.
  - repeat constructor.
  - repeat constructor. simpl. unfold keyNumber. simpl. lia.
Defined.

Lemma keyCell_first_match_witness :
  keyCell ([CStr "Name"] ++ CStr "Age" :: [CStr "Age"]) (CStr "Age")
          [CStr "Bob"; CNum 30; CNum 99] =
  nth_error [CStr "Bob"; CNum 30; CNum 99] 1 /\
  keyCell [CStr "Name"] (CStr "Age") [CStr "Bob"; CNum 30; CNum 99] = None.
Proof.
  apply (keyCell_first_match [CStr "Name"] [CStr "Age"] (CStr "Age")
                             [CStr "Bob"; CNum 30; CNum 99]).
  simpl. intuition discriminate.
Defined.

Lemma handleSort_unknown_key_witness :
  data (handleSort samplePlatform peopleSession (CStr "Height")) = data peopleSession.
Proof.
  apply (handleSort_unknown_key samplePlatform peopleSession (CStr "Height")
                                [CStr "Name"; CStr "Age"]).
  - reflexivity.
  - simpl. intuition discriminate.
  - reflexivity.
Defined.

Lemma refined_query_filters_projection_witness :
  filteredData samplePlatform (setSearchQuery "Ann" peopleSession) =
  filteredData samplePlatform (setSearchQuery "Ann"
                  (setData (filteredData samplePlatform (setSearchQuery "an" peopleSession))
                           peopleSession)).
Proof.
  apply (refined_query_filters_projection samplePlatform peopleSession "an" "Ann").
  exists "", "n". reflexivity.
Defined.

Lemma empty_query_shows_rows_with_cells_witness :
  filteredData samplePlatform peopleSession = filter nonEmpty (data peopleSession).
Proof.
  apply (empty_query_shows_rows_with_cells samplePlatform peopleSession). reflexivity.
Defined.

Lemma exported_line_field_count_witness :
  List.length (JS.split comma (joinCells samplePlatform [CStr "Doe, Jane"; CNum 30])) =
  (List.length [CStr "Doe, Jane"; CNum 30] + commasIn samplePlatform [CStr "Doe, Jane"; CNum 30])%nat.
Proof.
  apply (exported_line_field_count samplePlatform [CStr "Doe, Jane"; CNum 30]). discriminate.
Defined.

Lemma busy_only_while_in_flight_witness :
  exists a,
    run samplePlatform start [PressUpload; PickerResolved 0 false] = Some a /\
    loading (view a) = true /\
    (1 <= inFlight a)%nat.
Proof.
  eexists. split; [reflexivity|]. split; [reflexivity|].
  apply (busy_only_while_in_flight samplePlatform
                                   [PressUpload; PickerResolved 0 false]);
    reflexivity.
Defined.

Lemma export_enabled_builds_text_witness :
  exists a,
    run samplePlatform start
        [PressUpload; PickerResolved 0 false; ReadResolved 0 "people"] = Some a /\
    exists text, exportToCSV samplePlatform (view a) = (Some text, []).
Proof.
  eexists. split; [reflexivity|].
  apply (export_enabled_builds_text
           samplePlatform
           [PressUpload; PickerResolved 0 false; ReadResolved 0 "people"]);
    reflexivity.
Defined.

Lemma empty_grid_unmounts_witness :
  exists a',
    step samplePlatform twoCallsApp (ReadResolved 0 "") = Some a' /\
    mounted a' = false.
Proof.
  eexists. split; [reflexivity|].
  apply (empty_grid_unmounts samplePlatform twoCallsApp _ 0%nat "");
    reflexivity.
Defined.

Lemma load_without_grid_keeps_session_witness :
  exists a',
    step samplePlatform readingApp (ReadResolved 0 "%PDF-1.7") = Some a' /\
    view a' = setLoading false (view readingApp).
Proof.
  eexists. split; [reflexivity|].
  apply (load_without_grid_keeps_session
           samplePlatform readingApp _ (ReadResolved 0 "%PDF-1.7"));
    reflexivity.
Defined.

Lemma cancel_clears_busy_flag_early_witness :
  exists a',
    step samplePlatform twoCallsApp (PickerResolved 1 true) = Some a' /\
    loading (view a') = false /\
    (1 <= inFlight a')%nat.
Proof.
  apply (cancel_clears_busy_flag_early samplePlatform twoCallsApp 1%nat).
  - reflexivity.
  - reflexivity.
  - unfold inFlight. simpl. lia.
Defined.

Lemma handleSort_text_in_order_witness :
  StronglySorted
    (fun a b =>
       match direction (sortConfig (handleSort samplePlatform peopleSession (CStr "Name"))) with
       | asc =>
           (localeCompare samplePlatform (keyString samplePlatform [CStr "Name"; CStr "Age"] (CStr "Name") a)
                            (keyString samplePlatform [CStr "Name"; CStr "Age"] (CStr "Name") b) <= 0)%Z
       | desc =>
           (localeCompare samplePlatform (keyString samplePlatform [CStr "Name"; CStr "Age"] (CStr "Name") b)
                            (keyString samplePlatform [CStr "Name"; CStr "Age"] (CStr "Name") a) <= 0)%Z
       end)
    (data (handleSort samplePlatform peopleSession (CStr "Name"))).
Proof.
  apply (handleSort_text_in_order samplePlatform peopleSession (CStr "Name")
                                  [CStr "Name"; CStr "Age"]).
  - exact codeUnitCompare_sym.
  - exact codeUnitCompare_trans.
  - reflexivity.
  - repeat constructor.
Defined.

Lemma dataset_is_from_one_file_witness :
  exists a,
    run samplePlatform start
        [PressUpload; PickerResolved 0 false; ReadResolved 0 "people";
         PressHeader (CStr "Age")] = Some a /\
    fromOneFile samplePlatform (view a).
Proof.
  eexists. split; [reflexivity|].
  apply (dataset_is_from_one_file
           samplePlatform
           [PressUpload; PickerResolved 0 false; ReadResolved 0 "people";
            PressHeader (CStr "Age")]).
  reflexivity.
Defined.
